(** * crawl_github.py: the catalogue crawler of Craft-Typecho

    A shallow embedding of [scripts/crawl_github.py] and the proofs of the
    properties its specification states.

    Modelling conventions.
    - A Python [str] is a Rocq [string]; its characters are the code points
      U+0000..U+00FF.  [Py] gives the built-in string methods the script
      calls, with their behaviour on that range.
    - A regular expression of the script is embedded as the scanner that
      [re.match], [re.search] or [re.sub] runs for that one pattern
      (module [Re]); the pattern is quoted at each scanner.
    - A JSON object ([Dict[str, Any]]) is a [gmap string value]; a value is
      [None], a boolean or a string.
    - The catalogue is a list of objects; the dictionary [by_link] of the
      merger, which aliases the objects of that list, maps a link to the
      position of the object it aliases. *)

From Stdlib Require Import Ascii String DecimalString DecimalNat.
From stdpp Require Import gmap strings list.

Set Warnings "-abstract-large-number,-clear-no-such-hyp".
Local Open Scope stdpp_scope.

(** ** Characters *)

Module Chr.

Definition code (c : ascii) : nat := nat_of_ascii c.

Definition between (lo hi : nat) (c : ascii) : bool :=
  (lo <=? code c) && (code c <=? hi).

(** [0-9], [a-z], [A-Z] *)
Definition is_digit (c : ascii) : bool := between 48 57 c.
Definition is_lower (c : ascii) : bool := between 97 122 c.
Definition is_upper (c : ascii) : bool := between 65 90 c.

(** [a-z0-9] *)
Definition is_lower_alnum (c : ascii) : bool := is_lower c || is_digit c.
(** [A-Za-z0-9] *)
Definition is_alnum (c : ascii) : bool :=
  is_upper c || is_lower c || is_digit c.
(** [A-Za-z0-9_] *)
Definition is_ident (c : ascii) : bool :=
  is_alnum c || bool_decide (c = "_"%char).
(** [A-Za-z0-9_-] *)
Definition is_dir_char (c : ascii) : bool :=
  is_alnum c || bool_decide (c = "_"%char) || bool_decide (c = "-"%char).
(** [0-9A-Za-z.+-] *)
Definition is_version_char (c : ascii) : bool :=
  is_alnum c || bool_decide (c = "."%char) || bool_decide (c = "+"%char)
  || bool_decide (c = "-"%char).

Definition is_hyphen (c : ascii) : bool := bool_decide (c = "-"%char).

(** [str.isspace] and the class [\s] of a [str] pattern: TAB, LF, VT, FF,
    CR, FS, GS, RS, US, SPACE, NEL, NBSP. *)
Definition is_space (c : ascii) : bool :=
  between 9 13 c || between 28 32 c
  || bool_decide (code c = 133) || bool_decide (code c = 160).

(** The line boundaries of [str.splitlines]: LF, VT, FF, CR, FS, GS, RS,
    NEL. *)
Definition is_linebreak (c : ascii) : bool :=
  between 10 13 c || between 28 30 c || bool_decide (code c = 133).

(** The class [\w] of a [str] pattern: [str.isalnum] or an underscore. *)
Definition is_word (c : ascii) : bool :=
  is_ident c
  || bool_decide (code c = 170) || bool_decide (code c = 181)
  || bool_decide (code c = 186)
  || between 178 179 c || bool_decide (code c = 185) || between 188 190 c
  || (between 192 255 c && negb (bool_decide (code c = 215))
      && negb (bool_decide (code c = 247))).

(** [str.lower] on one character. *)
Definition lower (c : ascii) : ascii :=
  if is_upper c || (between 192 222 c && negb (bool_decide (code c = 215)))
  then ascii_of_nat (code c + 32)
  else c.

End Chr.

(** ** The string methods of Python the script uses *)

Module Py.

Fixpoint map (f : ascii → ascii) (s : string) : string :=
  match s with
  | "" => ""
  | String c s' => String (f c) (map f s')
  end.

Fixpoint filter (p : ascii → bool) (s : string) : string :=
  match s with
  | "" => ""
  | String c s' => if p c then String c (filter p s') else filter p s'
  end.

(** [s.lower()] *)
Definition lower (s : string) : string := map Chr.lower s.

(** [s.lstrip(chars)], the characters given as a class *)
Fixpoint lstrip_by (p : ascii → bool) (s : string) : string :=
  match s with
  | "" => ""
  | String c s' => if p c then lstrip_by p s' else s
  end.

(** [s.rstrip(chars)] *)
Fixpoint rstrip_by (p : ascii → bool) (s : string) : string :=
  match s with
  | "" => ""
  | String c s' =>
      match rstrip_by p s' with
      | "" => if p c then "" else String c ""
      | r => String c r
      end
  end.

(** [s.strip(chars)] *)
Definition strip_by (p : ascii → bool) (s : string) : string :=
  rstrip_by p (lstrip_by p s).

(** [s.strip()] *)
Definition strip (s : string) : string := strip_by Chr.is_space s.

(** [s.startswith(t)] *)
Definition startswith (s t : string) : bool := String.prefix t s.

(** the rest of [s] after its first [n] characters, [s[n:]] *)
Fixpoint drop (n : nat) (s : string) : string :=
  match n, s with
  | S n', String _ s' => drop n' s'
  | _, _ => s
  end.

(** [s[:n]] *)
Fixpoint take (n : nat) (s : string) : string :=
  match n, s with
  | S n', String c s' => String c (take n' s')
  | _, _ => ""
  end.

(** [s[i:j]] for [0 <= i], [0 <= j] *)
Definition slice (i j : nat) (s : string) : string := take (j - i) (drop i s).

(** [s.endswith(t)] *)
Definition endswith (s t : string) : bool :=
  (String.length t <=? String.length s)
  && bool_decide (drop (String.length s - String.length t) s = t).

(** [s.find(t)]: the lowest index at which [t] occurs; [None] for -1 *)
Fixpoint find (t s : string) : option nat :=
  if String.prefix t s then Some 0
  else match s with
       | "" => None
       | String _ s' => S <$> find t s'
       end.

(** [s.find(t, start)] for [0 <= start <= len(s)] *)
Definition find_from (t s : string) (start : nat) : option nat :=
  (λ i, start + i) <$> find t (drop start s).

(** [s.replace(a, b)] for one-character [a] and [b] *)
Definition replace_char (a b : ascii) (s : string) : string :=
  map (λ c, if bool_decide (c = a) then b else c) s.

(** [s.split(sep)] for a one-character [sep] *)
Fixpoint split (sep : ascii) (s : string) : list string :=
  match s with
  | "" => [""]
  | String c s' =>
      if bool_decide (c = sep) then "" :: split sep s'
      else match split sep s' with
           | [] => [String c ""]
           | w :: ws => String c w :: ws
           end
  end.

(** [s.splitlines()] *)
Fixpoint splitlines (s : string) : list string :=
  match s with
  | "" => []
  | String c s' =>
      if Chr.is_linebreak c then
        match s' with
        | String c' s'' =>
            if bool_decide (c = "013"%char) && bool_decide (c' = "010"%char)
            then "" :: splitlines s''
            else "" :: splitlines s'
        | "" => [""]
        end
      else match splitlines s' with
           | [] => [String c ""]
           | l :: ls => String c l :: ls
           end
  end.

(** [str(n)] for a non-negative integer *)
Definition str_of_nat (n : nat) : string :=
  NilEmpty.string_of_uint (Nat.to_uint n).

End Py.

(** ** The regular expressions of the script *)

Module Re.

(** [re.sub(r"[C]+", rep, s)]: every maximal run of characters of the
    class [p] is replaced by [rep]. [in_run] tells that the character
    before belongs to a run already replaced. *)
Fixpoint sub_runs_go (p : ascii → bool) (rep : string) (in_run : bool)
    (s : string) : string :=
  match s with
  | "" => ""
  | String c s' =>
      if p c then
        if in_run then sub_runs_go p rep true s'
        else rep +:+ sub_runs_go p rep true s'
      else String c (sub_runs_go p rep false s')
  end.
Definition sub_runs (p : ascii → bool) (rep s : string) : string :=
  sub_runs_go p rep false s.

(** [re.sub(r"-{2,}", "-", s)]: every maximal run of two or more hyphens
    is replaced by one hyphen; a single hyphen is not matched and stays. *)
Fixpoint collapse_hyphens_go (in_run : bool) (s : string) : string :=
  match s with
  | "" => ""
  | String c s' =>
      if Chr.is_hyphen c then
        if in_run then collapse_hyphens_go true s'
        else match s' with
             | String c' _ =>
                 if Chr.is_hyphen c'
                 then String "-" (collapse_hyphens_go true s')
                 else String c (collapse_hyphens_go false s')
             | "" => String c ""
             end
      else String c (collapse_hyphens_go false s')
  end.
Definition collapse_hyphens (s : string) : string :=
  collapse_hyphens_go false s.

(** the maximal run of characters of the class [p] at the start of [s];
    what follows it is [Py.lstrip_by p s] *)
Fixpoint run (p : ascii → bool) (s : string) : string :=
  match s with
  | "" => ""
  | String c s' => if p c then String c (run p s') else ""
  end.

(** the last character of [s] that is in the class [p] *)
Fixpoint last_where (p : ascii → bool) (s : string) : option ascii :=
  match s with
  | "" => None
  | String c s' =>
      match last_where p s' with
      | Some d => Some d
      | None => if p c then Some c else None
      end
  end.

(** the first character of [s] is in the class [p] *)
Definition head_in (p : ascii → bool) (s : string) : bool :=
  match s with
  | "" => false
  | String c _ => p c
  end.

(** [.] of a pattern without [re.S]: any character but a line feed *)
Definition is_dot (c : ascii) : bool := negb (bool_decide (c = "010"%char)).

(** [_DIR_RE.match(s)] for [^[A-Za-z0-9][A-Za-z0-9_-]*$]: one
    alphanumeric, the maximal run of directory characters, and [$], which
    holds at the end of the string and before a line feed that ends it. *)
Definition match_dir (s : string) : bool :=
  match s with
  | "" => false
  | String c s' =>
      Chr.is_alnum c
      && (let rest := Py.lstrip_by Chr.is_dir_char s' in
          bool_decide (rest = "") || bool_decide (rest = String "010" ""))
  end.

(** A literal of a pattern compiled with [re.I], at the start of [s]: the
    literal [lit] is in lower case; the result is what follows the match. *)
Fixpoint ci_prefix (lit s : string) : option string :=
  match lit with
  | "" => Some s
  | String a lit' =>
      match s with
      | "" => None
      | String c s' =>
          if bool_decide (Chr.lower c = a) then ci_prefix lit' s' else None
      end
  end.

Definition is_sep (c : ascii) : bool :=
  bool_decide (c = "-"%char) || bool_decide (c = "_"%char).

(** [re.sub(r"(?i)^typecho[-_]?WORD[-_]+", "", name)]: the pattern is
    anchored at the start, so at most one match is removed. [[-_]?] first
    takes a separator when there is one, and is retried without it. *)
Definition sub_typecho_prefix (word name : string) : string :=
  let tail r :=
    match ci_prefix word r with
    | Some r' => if head_in is_sep r' then Some (Py.lstrip_by is_sep r') else None
    | None => None
    end in
  match ci_prefix "typecho" name with
  | None => name
  | Some r =>
      let with_sep :=
        match r with
        | String c r' => if is_sep c then tail r' else None
        | "" => None
        end in
      match with_sep with
      | Some rest => rest
      | None => default name (tail r)
      end
  end.

(** [re.match(r"@TAG\s+(.+)", line, re.I)]: [group(1)] of the match.
    [tag] is the literal ["@TAG"] in lower case. [\s+] takes the whole run
    of white space; when nothing follows the run, it gives characters back
    until [.] matches one of them. *)
Definition match_tag (tag line : string) : option string :=
  match ci_prefix tag line with
  | None => None
  | Some r =>
      match run Chr.is_space r with
      | "" => None
      | String _ ws =>
          match Py.lstrip_by Chr.is_space r with
          | "" => (λ c, String c "") <$> last_where is_dot ws
          | rest => Some (run is_dot rest)
          end
      end
  end.

(** [class\s+([A-Za-z0-9_]+)_Plugin\b] at the start of [s]: [group(1)].
    The group and [_Plugin] lie in one run of identifier characters, and
    [\b] holds after [_Plugin] only at the end of that run, when no word
    character follows. *)
Definition match_class_here (s : string) : option string :=
  if String.prefix "class" s then
    let r := Py.drop 5 s in
    if head_in Chr.is_space r then
      let r' := Py.lstrip_by Chr.is_space r in
      let w := run Chr.is_ident r' in
      if (8 <=? String.length w) && Py.endswith w "_Plugin"
         && negb (head_in Chr.is_word (Py.lstrip_by Chr.is_ident r'))
      then Some (Py.take (String.length w - 7) w)
      else None
    else None
  else None.

(** [re.search(r"\bclass\s+([A-Za-z0-9_]+)_Plugin\b", s)]: [group(1)] of
    the leftmost match. [prev_word] tells that the character before [s] is
    a word character, so that [\b] fails in front of [class]. *)
Fixpoint search_class (prev_word : bool) (s : string) : option string :=
  match (if prev_word then None else match_class_here s) with
  | Some g => Some g
  | None =>
      match s with
      | "" => None
      | String c s' => search_class (Chr.is_word c) s'
      end
  end.

Definition is_period (c : ascii) : bool := bool_decide (c = "."%char).

(** [(\d+\.\d+(?:\.\d+)?)] at the start of [s]: the text matched. Each
    [\d+] takes a whole run of digits; the third component is taken when a
    period and a digit follow the second.  On the code points
    U+0000..U+00FF the class [\d] is [0-9]; beyond them Python's [\d] also
    takes the other decimal digits of Unicode, which this file does not
    cover. *)
Definition match_dotted_here (s : string) : option string :=
  let a := run Chr.is_digit s in
  let r1 := Py.lstrip_by Chr.is_digit s in
  if bool_decide (a = "") then None
  else if negb (head_in is_period r1) then None
  else
    let r := Py.drop 1 r1 in
    let b := run Chr.is_digit r in
    let r2 := Py.lstrip_by Chr.is_digit r in
    if bool_decide (b = "") then None
    else
      let c := run Chr.is_digit (Py.drop 1 r2) in
      if head_in is_period r2 && negb (bool_decide (c = ""))
      then Some (a +:+ "." +:+ b +:+ "." +:+ c)
      else Some (a +:+ "." +:+ b).

(** [re.search(r"(\d+\.\d+(?:\.\d+)?)", s)]: [group(1)] of the leftmost
    match *)
Fixpoint search_dotted (s : string) : option string :=
  match match_dotted_here s with
  | Some m => Some m
  | None =>
      match s with
      | "" => None
      | String _ s' => search_dotted s'
      end
  end.

End Re.

(** ** Identifier sanitizer *)

(** [_slugify] *)
Definition _slugify (s : string) : string :=
  let s := Py.lower (Py.strip s) in
  let s := Re.sub_runs (λ c, negb (Chr.is_lower_alnum c)) "-" s in
  Py.strip_by Chr.is_hyphen (Re.collapse_hyphens s).

(** [_is_valid_dir] *)
Definition _is_valid_dir (s : string) : bool :=
  negb (bool_decide (s = "")) && Re.match_dir s.

(** [_derive_display_name] *)
Definition _derive_display_name (repo_name kind : string) : string :=
  let name := Py.strip repo_name in
  let name :=
    if bool_decide (kind = "plugin") then Re.sub_typecho_prefix "plugin" name
    else if bool_decide (kind = "theme") then Re.sub_typecho_prefix "theme" name
    else name in
  let name := Py.strip name in
  if bool_decide (name = "") then repo_name else name.

(** ** Metadata extractor *)

(** [_first_docblock] *)
Definition _first_docblock (text : string) : string :=
  let head := Py.take 8000 text in
  match Py.find "/**" head with
  | None => ""
  | Some start =>
      match Py.find_from "*/" head start with
      | None => ""
      | Some end_ => Py.slice start (end_ + 2) head
      end
  end.

(** the body of the loop of [_docblock_lines] *)
Definition docblock_line (raw : string) : string :=
  let line := Py.strip raw in
  let line := if Py.startswith line "/**" then Py.drop 3 line else line in
  let line :=
    if Py.endswith line "*/" then Py.take (String.length line - 2) line
    else line in
  Py.strip (Py.lstrip_by (λ c, bool_decide (c = "*"%char)) line).

(** [_docblock_lines] *)
Definition _docblock_lines (doc : string) : list string :=
  docblock_line <$> Py.splitlines doc.

(** [_pick_first_nonempty] *)
Fixpoint _pick_first_nonempty (lines : list string) : string :=
  match lines with
  | [] => ""
  | line :: rest =>
      if bool_decide (line = "") then _pick_first_nonempty rest
      else if Py.startswith line "@" then _pick_first_nonempty rest
      else Py.strip line
  end.

(** [meta.get(k) or ""] and [meta[k]] on the metadata dictionary, which
    holds strings under a fixed set of keys *)
Definition meta_get (meta : gmap string string) (k : string) : string :=
  default "" (meta !! k).

(** one [if m and not meta[key]: meta[key] = m.group(1).strip(); continue]
    of [_parse_docblock]: [Some] when the branch is taken *)
Definition parse_tag (tag key line : string) (meta : gmap string string)
    : option (gmap string string) :=
  match Re.match_tag tag line with
  | Some g =>
      if bool_decide (meta_get meta key = "")
      then Some (<[key := Py.strip g]> meta)
      else None
  | None => None
  end.

(** the body of the loop of [_parse_docblock] *)
Definition parse_line (meta : gmap string string) (line : string)
    : gmap string string :=
  match parse_tag "@package" "package" line meta with
  | Some meta' => meta'
  | None =>
  match parse_tag "@author" "author" line meta with
  | Some meta' => meta'
  | None =>
  match parse_tag "@version" "version" line meta with
  | Some meta' => meta'
  | None =>
  match parse_tag "@link" "link" line meta with
  | Some meta' => meta'
  | None => meta
  end end end end.

(** the metadata dictionary with every tag empty *)
Definition meta_init (description : string) : gmap string string :=
  <["package" := ""]> (<["author" := ""]> (<["version" := ""]>
    (<["link" := ""]> {["description" := description]}))).

(** [_parse_docblock] *)
Definition _parse_docblock (doc : string) : gmap string string :=
  let lines := _docblock_lines doc in
  foldl parse_line (meta_init (_pick_first_nonempty lines)) lines.

(** [_extract_class_prefix] *)
Definition _extract_class_prefix (text : string) : string :=
  let head := Py.take 16000 text in
  Py.strip (default "" (Re.search_class false head)).

(** [_clean_version] *)
Definition _clean_version (v : string) : string :=
  let v := Py.strip v in
  if bool_decide (v = "") then ""
  else match Re.search_dotted v with
       | Some m => m
       | None =>
           let v :=
             Py.replace_char "_" "."
               (Py.lstrip_by
                  (λ c, bool_decide (c = "v"%char) || bool_decide (c = "V"%char))
                  v) in
           Py.filter Chr.is_version_char v
       end.

(** ** Project builder *)

(** [re.sub(r"[^A-Za-z0-9_-]+", "-", s).strip("-")] *)
Definition sanitize (s : string) : string :=
  Py.strip_by Chr.is_hyphen
    (Re.sub_runs (λ c, negb (Chr.is_dir_char c)) "-" s).

(** [_build_dir] *)
Definition _build_dir (kind repo_name : string) (meta : gmap string string)
    (class_prefix : string) : string :=
  let package := Py.strip (meta_get meta "package") in
  if _is_valid_dir package then package
  else if _is_valid_dir class_prefix then class_prefix
  else
    let derived := _derive_display_name repo_name kind in
    if _is_valid_dir derived then derived
    else
      let sanitized := sanitize derived in
      if _is_valid_dir sanitized then sanitized
      else
        let sanitized := sanitize repo_name in
        if _is_valid_dir sanitized then sanitized else "".

(** [GithubRepo] *)
Record GithubRepo := {
  owner : string;
  repo : string;
  html_url : string;
  description : string;
  default_branch : string;
  homepage : string;
}.

(** ** Values and objects of the catalogue *)

Inductive value :=
  | VNone
  | VBool (b : bool)
  | VStr (s : string).

#[global] Instance value_eq_dec : EqDecision value.
Proof. solve_decision. Defined.

(** the truth value of [v] in a condition *)
Definition truthy (v : value) : bool :=
  match v with
  | VNone => false
  | VBool b => b
  | VStr s => negb (bool_decide (s = ""))
  end.

(** [str(v)] *)
Definition str (v : value) : string :=
  match v with
  | VNone => "None"
  | VBool true => "True"
  | VBool false => "False"
  | VStr s => s
  end.

(** [d.get(k)] *)
Definition get (d : gmap string value) (k : string) : value :=
  default VNone (d !! k).

(** [str(v or "")] *)
Definition str_or_empty (v : value) : string :=
  if truthy v then str v else "".

(** [a or b] on strings *)
Definition or_str (a b : string) : string :=
  if bool_decide (a = "") then b else a.

(** the metadata of the entry file: the first two statements of
    [_make_project] *)
Definition entry_meta (file_text : string) : gmap string string :=
  let doc := _first_docblock file_text in
  if bool_decide (doc = "") then meta_init "" else _parse_docblock doc.

(** the donation link: lines 237-242 of [_make_project] *)
Definition donate_link (meta : gmap string string) (gr : GithubRepo) : string :=
  let donate := "" in
  let link := Py.strip (meta_get meta "link") in
  let donate :=
    if negb (bool_decide (link = ""))
       && negb (Py.startswith (Py.lower link) "https://github.com/")
    then link else donate in
  if bool_decide (donate = "") && negb (bool_decide (homepage gr = ""))
     && (Py.startswith (Py.lower (homepage gr)) "http://"
         || Py.startswith (Py.lower (homepage gr)) "https://")
  then homepage gr else donate.

(** [_make_project] *)
Definition _make_project (kind : string) (gr : GithubRepo) (file_text : string)
    : gmap string value :=
  let meta := entry_meta file_text in
  let class_prefix :=
    if bool_decide (kind = "plugin") then _extract_class_prefix file_text
    else "" in
  let install_dir := _build_dir kind (repo gr) meta class_prefix in
  let display_name := _derive_display_name (repo gr) kind in
  let display_name :=
    if negb (bool_decide (meta_get meta "package" = ""))
       && (40 <? String.length display_name)
    then meta_get meta "package" else display_name in
  let donate := donate_link meta gr in
  let version := _clean_version (meta_get meta "version") in
  let author := or_str (Py.strip (meta_get meta "author")) (owner gr) in
  let description := or_str (description gr) (meta_get meta "description") in
  let project_id :=
    kind +:+ "-"
    +:+ or_str (_slugify (or_str install_dir (repo gr)))
          (_slugify (owner gr +:+ "-" +:+ repo gr)) in
  list_to_map
    [ ("id", VStr project_id);
      ("name", VStr display_name);
      ("type", VStr kind);
      ("link", VStr (or_str (html_url gr)
                 ("https://github.com/" +:+ owner gr +:+ "/" +:+ repo gr)));
      ("isGithub", VBool true);
      ("direct", VBool true);
      ("version", VStr version);
      ("typecho", VStr "");
      ("author", VStr author);
      ("donate", VStr donate);
      ("description", VStr description);
      ("dir", VStr (or_str install_dir (repo gr))) ].

(** ** Catalogue merger *)

(** The state of [_merge_projects]: the list [out], the dictionary
    [by_link], whose values are the objects of [out] and are kept as their
    positions, and the set [used_ids]. *)
Record merge_state := MergeState {
  out : list (gmap string value);
  by_link : gmap string nat;
  used_ids : gset string;
}.

(** the first loop: [by_link[str(it["link"]).strip()] = it] for each item
    with a true link; [i] is the position of the head of [items] *)
Fixpoint index_links (m : gmap string nat) (i : nat)
    (items : list (gmap string value)) : gmap string nat :=
  match items with
  | [] => m
  | it :: rest =>
      index_links
        (if truthy (get it "link")
         then <[Py.strip (str (get it "link")) := i]> m else m)
        (S i) rest
  end.

(** [{str(it.get("id")) for it in existing if it.get("id")}] *)
Definition collect_ids (existing : list (gmap string value)) : gset string :=
  list_to_set
    (omap (λ it, if truthy (get it "id") then Some (str (get it "id")) else None)
       existing).

(** [f"{base}-{i}"] *)
Definition suffixed (base : string) (i : nat) : string :=
  base +:+ "-" +:+ Py.str_of_nat i.

(** [while f"{base}-{i}" in used_ids: i += 1], the final [i]. The loop ends
    within [size used] rounds, as the names it tries are pairwise distinct;
    [fuel] bounds the rounds. *)
Fixpoint first_free (used : gset string) (base : string) (fuel i : nat) : nat :=
  match fuel with
  | 0 => i
  | S fuel' =>
      if bool_decide (suffixed base i ∈ used)
      then first_free used base fuel' (S i)
      else i
  end.

(** [unique_id]: the id it returns and [used_ids] after the call *)
Definition unique_id (used : gset string) (base : string)
    : string * gset string :=
  if bool_decide (base ∈ used) then
    let v := suffixed base (first_free used base (S (size used)) 2) in
    (v, {[v]} ∪ used)
  else (base, {[base]} ∪ used).

(** [cur.get("link", "").split("/")[-1] if isinstance(cur.get("link"), str)
    else ""] *)
Definition link_tail (cur : gmap string value) : string :=
  match cur !! "link" with
  | Some (VStr s) => List.last (Py.split "/" s) ""
  | _ => ""
  end.

(** the two branches that set [cur["dir"]] *)
Definition fix_dir (cur inc : gmap string value) : gmap string value :=
  if truthy (get inc "dir")
     && (negb (truthy (get cur "dir"))
         || bool_decide (get cur "dir" = VStr (link_tail cur)))
  then <["dir" := get inc "dir"]> cur
  else if truthy (get inc "dir")
          && negb (bool_decide (get cur "dir" = get inc "dir"))
          && _is_valid_dir (str (get inc "dir"))
  then <["dir" := get inc "dir"]> cur
  else cur.

(** [if (not cur.get(k)) and inc.get(k): cur[k] = inc[k]] *)
Definition fill_blank (inc cur : gmap string value) (k : string)
    : gmap string value :=
  if negb (truthy (get cur k)) && truthy (get inc k)
  then <[k := get inc k]> cur else cur.

Definition fill_keys : list string :=
  ["version"; "typecho"; "author"; "donate"; "description"; "name"; "type"].

(** [if k not in cur: cur[k] = True] *)
Definition default_true (k : string) (cur : gmap string value)
    : gmap string value :=
  match cur !! k with
  | None => <[k := VBool true]> cur
  | Some _ => cur
  end.

(** the update of the object [cur] that shares its link with [inc] *)
Definition update_existing (inc cur : gmap string value) : gmap string value :=
  let cur := fix_dir cur inc in
  let cur := foldl (fill_blank inc) cur fill_keys in
  let cur := default_true "isGithub" cur in
  default_true "direct" cur.

(** the body of the loop over [incoming] *)
Definition merge_step (st : merge_state) (inc : gmap string value)
    : merge_state :=
  let link := Py.strip (str_or_empty (get inc "link")) in
  if bool_decide (link = "") then st
  else
    match by_link st !! link with
    | Some i =>
        MergeState (alter (update_existing inc) i (out st))
          (by_link st) (used_ids st)
    | None =>
        let '(v, used) := unique_id (used_ids st) (str_or_empty (get inc "id")) in
        let inc2 := <["id" := VStr v]> inc in
        MergeState (out st ++ [inc2])
          (<[link := length (out st)]> (by_link st)) used
    end.

(** the state before the loop over [incoming] *)
Definition merge_init (existing : list (gmap string value)) : merge_state :=
  MergeState existing (index_links ∅ 0 existing) (collect_ids existing).

(** [_merge_projects] *)
Definition _merge_projects (existing incoming : list (gmap string value))
    : list (gmap string value) :=
  out (foldl merge_step (merge_init existing) incoming).

(** ** Predicates on strings used in the statements *)

(** every character of [s] is in the class [p] *)
Fixpoint all_chars (p : ascii → bool) (s : string) : bool :=
  match s with
  | "" => true
  | String c s' => p c && all_chars p s'
  end.

(** no two neighbours of [s] are both in the class [p] *)
Fixpoint no_pair (p : ascii → bool) (s : string) : bool :=
  match s with
  | "" => true
  | String a s' =>
      match s' with
      | String b _ => negb (p a && p b)
      | "" => true
      end && no_pair p s'
  end.

(** the first character of [s], when there is one, is outside [p] *)
Definition head_not (p : ascii → bool) (s : string) : bool :=
  match s with
  | "" => true
  | String c _ => negb (p c)
  end.

(** The directory-name rule in the words of the specification: not empty,
    an alphanumeric first, then alphanumerics, hyphens and underscores
    only. *)
Definition dir_name_ok (s : string) : bool :=
  match s with
  | "" => false
  | String c t => Chr.is_alnum c && all_chars Chr.is_dir_char t
  end.

(** [t] occurs in [s] at the position [i] *)
Definition occurs_at (t s : string) (i : nat) : Prop :=
  ∃ pre post, s = pre +:+ t +:+ post ∧ String.length pre = i.

(** the line feed *)
Definition LF : string := String "010" "".

(** [n] spaces *)
Definition spaces (n : nat) : string :=
  string_of_list_ascii (replicate n " "%char).

(** ** The metadata in the words of the specification *)

(** the value that a line carries for a tag, when it carries the tag *)
Definition tag_value (tag line : string) : option string :=
  Py.strip <$> Re.match_tag tag line.

(** the value of the first line that carries the tag; empty when no line
    carries it *)
Definition first_tag (tag : string) (lines : list string) : string :=
  default "" (head (omap (tag_value tag) lines)).

(** the first line that is not empty and does not begin with ["@"]; empty
    when there is none *)
Definition first_plain_line (lines : list string) : string :=
  default ""
    (head (List.filter
             (λ l, negb (bool_decide (l = "")) && negb (Py.startswith l "@"))
             lines)).

(** the metadata dictionary with the given values *)
Definition mk_meta (package author version link description : string)
    : gmap string string :=
  <["package" := package]> (<["author" := author]> (<["version" := version]>
    (<["link" := link]> {["description" := description]}))).

(** what one tag holds after a line: the value of the line when the tag
    was empty, what it held otherwise *)
Definition keep_first (held : string) (found : option string) : string :=
  if bool_decide (held = "") then default held found else held.

(** a comment block with two [@author] tags *)
Definition sample_docblock : string :=
  String.concat LF
    [ "/**";
      " * A sample plugin.";
      " *";
      " * @package Foo";
      " * @author Jane";
      " * @version 1.2";
      " * @link http://example.com";
      " * @author Mallory";
      " */" ].

(** ** The version cleaner in the words of the specification *)

(** a number: one digit or more *)
Definition digits (s : string) : Prop :=
  s ≠ "" ∧ all_chars Chr.is_digit s = true.

(** a dotted numeric sequence of two or three components *)
Definition dotted (m : string) : Prop :=
  ∃ a b, digits a ∧ digits b
    ∧ (m = a +:+ "." +:+ b
       ∨ ∃ c, digits c ∧ m = a +:+ "." +:+ b +:+ "." +:+ c).

(** [m] is the first dotted sequence that occurs in [v]: no dotted
    sequence starts before it, and none that starts with it is longer *)
Definition first_dotted (v m : string) : Prop :=
  ∃ pre post,
    v = pre +:+ m +:+ post ∧ dotted m
    ∧ ∀ pre' m' post', v = pre' +:+ m' +:+ post' → dotted m' →
        String.length pre < String.length pre'
        ∨ (String.length pre = String.length pre'
           ∧ String.length m' ≤ String.length m).

(** no dotted sequence occurs in [v] *)
Definition no_dotted (v : string) : Prop :=
  ∀ pre m post, v = pre +:+ m +:+ post → ¬ dotted m.

(** [v] with a leading ["v"] stripped, underscores converted to dots and
    the characters outside [0-9A-Za-z.+-] removed *)
Definition version_fallback_spec (v : string) : string :=
  let v := if Py.startswith v "v" then Py.drop 1 v else v in
  Py.filter Chr.is_version_char (Py.replace_char "_" "." v).

(** ** The donation link in the words of the specification *)

(** the canonical hosting domain *)
Definition hosting_domain : string := "github.com".

(** the link names the hosting domain, in whatever case and at whatever
    place *)
Definition names_hosting_domain (link : string) : Prop :=
  ∃ i, occurs_at hosting_domain (Py.lower link) i.

(** a link to the hosting domain in its canonical form: in lower case it
    begins with ["https://github.com/"] *)
Definition canonical_self_link (link : string) : bool :=
  Py.startswith (Py.lower link) "https://github.com/".

(** the claim as it is stated, for a reading [self_link] of the links that
    are self-referential links to the hosting domain: the link tag when it
    is not empty and not such a link; otherwise the homepage when it begins
    with ["http://"] or ["https://"]; otherwise empty *)
Definition donate_spec (self_link : string → bool) (link homepage : string)
    : string :=
  if negb (bool_decide (link = "")) && negb (self_link link) then link
  else if Py.startswith homepage "http://" || Py.startswith homepage "https://"
       then homepage
       else "".

(** the homepage when, compared in lower case, it begins with ["http://"]
    or ["https://"], and the empty string otherwise *)
Definition homepage_or_empty (homepage : string) : string :=
  if Py.startswith (Py.lower homepage) "http://"
     || Py.startswith (Py.lower homepage) "https://"
  then homepage else "".

(** a repository whose homepage is written in capitals *)
Definition capital_homepage_repo : GithubRepo :=
  {| owner := "alice";
     repo := "typecho-plugin-demo";
     html_url := "https://github.com/alice/typecho-plugin-demo";
     description := "A demo plugin";
     default_branch := "main";
     homepage := "HTTPS://EXAMPLE.COM/DONATE" |}.

(** ** The merger in the words of the specification *)

(** the key under which [by_link] holds an item of the catalogue: its
    link without the white space around it, when the link is true *)
Definition link_key (it : gmap string value) : option string :=
  if truthy (get it "link") then Some (Py.strip (str (get it "link")))
  else None.

(** the link of an incoming record, as the loop reads it *)
Definition incoming_link (inc : gmap string value) : string :=
  Py.strip (str_or_empty (get inc "link")).

(** the fields that the update of an existing record may write *)
Definition updatable_keys : list string :=
  ["dir"; "version"; "typecho"; "author"; "donate"; "description"; "name";
   "type"; "isGithub"; "direct"].

(** the records of the batch that are inserted: those whose link is not
    empty and was not seen, neither in the catalogue nor earlier in the
    batch *)
Fixpoint inserted (seen : gset string) (incoming : list (gmap string value))
    : list (gmap string value) :=
  match incoming with
  | [] => []
  | inc :: rest =>
      let link := incoming_link inc in
      if bool_decide (link = "") || bool_decide (link ∈ seen)
      then inserted seen rest
      else inc :: inserted ({[link]} ∪ seen) rest
  end.

(** the links of the catalogue *)
Definition catalogue_links (existing : list (gmap string value)) : gset string :=
  list_to_set (omap link_key existing).

(** two records agree outside the given fields *)
Definition same_outside (keys : list string) (a b : gmap string value) : Prop :=
  ∀ k, k ∉ keys → a !! k = b !! k.

(** the ids that are not empty are pairwise distinct *)
Definition ids_distinct (items : list (gmap string value)) : Prop :=
  ∀ i j a b,
    items !! i = Some a → items !! j = Some b →
    truthy (get a "id") = true → get a "id" = get b "id" → i = j.

(** all the ids, the empty ones too, are pairwise distinct *)
Definition all_ids_distinct (items : list (gmap string value)) : Prop :=
  ∀ i j a b,
    items !! i = Some a → items !! j = Some b →
    get a "id" = get b "id" → i = j.

(** a record as the project builder makes it, as far as the merger is
    concerned: a link that is not empty and both flags set *)
Definition built_like (inc : gmap string value) : Prop :=
  truthy (get inc "link") = true
  ∧ inc !! "isGithub" = Some (VBool true)
  ∧ inc !! "direct" = Some (VBool true).

(** ** Field-wise view of the update of an existing record *)

(** what the update by one incoming record does to one field *)
Inductive field_update :=
  | Keep
  | Set_to (v : option value)
  | Fill_with (v : option value).

(** [Fill_with v] writes [v] into a field that is blank *)
Definition apply_update (blank : option value → bool) (u : field_update)
    (c : option value) : option value :=
  match u with
  | Keep => c
  | Set_to v => v
  | Fill_with v => if blank c then v else c
  end.

(** [u1] followed by [u2] *)
Definition then_update (blank : option value → bool) (u1 u2 : field_update)
    : field_update :=
  match u2 with
  | Keep => u1
  | Set_to v => Set_to v
  | Fill_with v =>
      match u1 with
      | Keep => Fill_with v
      | Set_to c => Set_to (apply_update blank (Fill_with v) c)
      | Fill_with a => Fill_with (apply_update blank (Fill_with v) a)
      end
  end.

Definition truthy_field (c : option value) : bool := truthy (default VNone c).

(** when the field [k] of a record counts as blank; [tail] is the last
    segment of the link of the record *)
Definition field_blank (tail k : string) (c : option value) : bool :=
  if bool_decide (k = "dir")
  then negb (truthy_field c) || bool_decide (c = Some (VStr tail))
  else if bool_decide (k ∈ fill_keys) then negb (truthy_field c)
  else bool_decide (c = None).

(** what the update by [inc] does to the field [k] *)
Definition field_update_of (inc : gmap string value) (k : string)
    : field_update :=
  if bool_decide (k = "dir") then
    if truthy (get inc "dir") then
      if _is_valid_dir (str (get inc "dir")) then Set_to (Some (get inc "dir"))
      else Fill_with (Some (get inc "dir"))
    else Keep
  else if bool_decide (k ∈ fill_keys) then
    if truthy (get inc k) then Fill_with (Some (get inc k)) else Keep
  else if bool_decide (k ∈ ["isGithub"; "direct"]) then
    Fill_with (Some (VBool true))
  else Keep.

(** the loop over [incoming] when every link is already known: only
    updates, through a fixed [by_link] *)
Definition replay_step (links : gmap string nat)
    (items : list (gmap string value)) (inc : gmap string value)
    : list (gmap string value) :=
  let link := incoming_link inc in
  if bool_decide (link = "") then items
  else match links !! link with
       | Some i => alter (update_existing inc) i items
       | None => items
       end.

Definition replay (links : gmap string nat) (items : list (gmap string value))
    (incoming : list (gmap string value)) : list (gmap string value) :=
  foldl (replay_step links) items incoming.

(** ** Sample catalogues *)

Definition sample_link : string := "https://github.com/a/b".

(** existing [{link: L, author: "", version: "1.0"}] and incoming
    [{link: L, author: "Bob", version: "2.0"}] *)
Definition blank_author_record : gmap string value :=
  <["link" := VStr sample_link]>
    (<["author" := VStr ""]> {["version" := VStr "1.0"]}).

Definition bob_record : gmap string value :=
  <["link" := VStr sample_link]>
    (<["author" := VStr "Bob"]> {["version" := VStr "2.0"]}).

(** an existing record and an incoming one with the same id
    ["plugin-foo"] and different links *)
Definition foo_record : gmap string value :=
  <["id" := VStr "plugin-foo"]> {["link" := VStr "https://github.com/a/foo"]}.

Definition other_foo_record : gmap string value :=
  <["id" := VStr "plugin-foo"]> {["link" := VStr "https://github.com/b/foo"]}.

(** two records of a catalogue with an empty id *)
Definition no_id_record_1 : gmap string value :=
  <["id" := VStr ""]> {["link" := VStr "https://github.com/a/one"]}.

Definition no_id_record_2 : gmap string value :=
  <["id" := VStr ""]> {["link" := VStr "https://github.com/a/two"]}.

(** the field [k] after [fill_blank]: the value of [inc] when the field is
    blank and that value is not *)
Definition fill_value (inc : gmap string value) (k : string)
    (c : option value) : option value :=
  if negb (truthy_field c) && truthy (get inc k) then Some (get inc k) else c.

(** a flag after [default_true] *)
Definition flag_value (c : option value) : option value :=
  match c with
  | None => Some (VBool true)
  | Some _ => c
  end.

(** the dictionary [by_link] of a state is the index of the links of its
    list [out] *)
Definition indexed (st : merge_state) : Prop :=
  by_link st = index_links ∅ 0 (out st).

(** every id of [out] that is not empty is in [used_ids] *)
Definition ids_tracked (st : merge_state) : Prop :=
  ∀ a, a ∈ out st → truthy (get a "id") = true →
       str (get a "id") ∈ used_ids st.

(** ** Merging a batch again *)

(** the incoming record [p] is an update of the item at the position [j] *)
Definition targets (links : gmap string nat) (j : nat)
    (p : gmap string value) : bool :=
  negb (bool_decide (incoming_link p = ""))
  && bool_decide (links !! incoming_link p = Some j).

(** the link of [p] is empty or bound in [links] *)
Definition known (links : gmap string nat) (p : gmap string value) : Prop :=
  incoming_link p = "" ∨ is_Some (links !! incoming_link p).

(** the record [cur] after the updates by the records [ps], in order *)
Definition update_all (ps : list (gmap string value))
    (cur : gmap string value) : gmap string value :=
  foldl (λ r p, update_existing p r) cur ps.

(** every record of [ps] has a known link, and merging [ps] again leaves
    the catalogue as it is *)
Definition settled (st : merge_state) (ps : list (gmap string value)) : Prop :=
  replay (by_link st) (out st) ps = out st ∧ Forall (known (by_link st)) ps.

(** a catalogue with one record and a batch of two built records of one
    repository, found under both kinds *)
Definition sample_repo : GithubRepo :=
  {| owner := "a";
     repo := "b";
     html_url := sample_link;
     description := "";
     default_branch := "main";
     homepage := "" |}.

Definition sample_batch : list (gmap string value) :=
  [ _make_project "plugin" sample_repo "<?php /** @package MyPlugin */";
    _make_project "theme" sample_repo "<?php";
    _make_project "plugin" capital_homepage_repo "<?php" ].

(** ** Orchestrator *)

(** the name of the entry file of a kind *)
Definition entry_path (kind : string) : string :=
  if bool_decide (kind = "plugin") then "Plugin.php" else "index.php".

(** [collect] of [main]: the records it appends to [discovered], from
    [added] records on.  [fetch owner repo branch path] stands for
    [_raw_get_text] on the session, in a run where no request fails: the
    text of the file, [None] when the file is missing. *)
Fixpoint collect (fetch : string → string → string → string → option string)
    (kind : string) (repos : list GithubRepo) (limit added : nat)
    : list (gmap string value) :=
  match repos with
  | [] => []
  | gr :: rest =>
      if limit <=? added then []
      else
        match fetch (owner gr) (repo gr) (default_branch gr) (entry_path kind)
        with
        | None => collect fetch kind rest limit added
        | Some text =>
            let proj := _make_project kind gr text in
            if negb (_is_valid_dir (str_or_empty (get proj "dir")))
            then collect fetch kind rest limit added
            else proj :: collect fetch kind rest limit (S added)
        end
  end.

(** the list [discovered] of [main] after the two calls of [collect];
    [plugins] and [themes] are the options of these names, and the limit of
    a call is [max(0, n)] *)
Definition discovered (fetch : string → string → string → string → option string)
    (plugin_repos theme_repos : list GithubRepo) (plugins themes : Z)
    : list (gmap string value) :=
  collect fetch "plugin" plugin_repos (Z.to_nat (Z.max 0 plugins)) 0
  ++ collect fetch "theme" theme_repos (Z.to_nat (Z.max 0 themes)) 0.

(** the list [merged] of [main] *)
Definition merged (fetch : string → string → string → string → option string)
    (projects : list (gmap string value))
    (plugin_repos theme_repos : list GithubRepo) (plugins themes : Z)
    : list (gmap string value) :=
  _merge_projects projects
    (discovered fetch plugin_repos theme_repos plugins themes).

(** the record of a candidate that is accepted: its entry file is there
    and the directory of its record is a directory name *)
Definition accepted (fetch : string → string → string → string → option string)
    (kind : string) (gr : GithubRepo) : option (gmap string value) :=
  match fetch (owner gr) (repo gr) (default_branch gr) (entry_path kind) with
  | None => None
  | Some text =>
      let proj := _make_project kind gr text in
      if _is_valid_dir (str (get proj "dir")) then Some proj else None
  end.

(** a record as [collect] appends it: a directory name, an id that is not
    empty, a link that is not empty and both flags set *)
Definition collected_like (p : gmap string value) : Prop :=
  _is_valid_dir (str (get p "dir")) = true
  ∧ truthy (get p "id") = true
  ∧ built_like p.

(** ** More on the merger in the words of the specification *)

(** no two records have the same link *)
Definition links_distinct (items : list (gmap string value)) : Prop :=
  ∀ i j a b L,
    items !! i = Some a → items !! j = Some b →
    link_key a = Some L → link_key b = Some L → i = j.

(** the record has a link that the loop reads as not empty *)
Definition has_link (inc : gmap string value) : bool :=
  negb (bool_decide (incoming_link inc = "")).

(** [used_ids] holds the ids of [out] and nothing else *)
Definition used_exact (st : merge_state) : Prop :=
  used_ids st = collect_ids (out st).

(** ** Elementary facts on strings *)

Section string_facts.

Implicit Types (s t u : string) (c : ascii) (p : ascii → bool).

Lemma sapp_nil_l s : "" +:+ s = s.
Proof. reflexivity. Qed.

Lemma sapp_cons c s t : String c s +:+ t = String c (s +:+ t).
Proof. reflexivity. Qed.

Lemma sapp_nil_r s : s +:+ "" = s.
Proof. induction s as [|c s IH]; [done|]. by rewrite sapp_cons, IH. Qed.

Lemma sapp_assoc s t u : (s +:+ t) +:+ u = s +:+ (t +:+ u).
Proof. induction s as [|c s IH]; [done|]. by rewrite !sapp_cons, IH. Qed.

Lemma sapp_length s t :
  String.length (s +:+ t) = String.length s + String.length t.
Proof. induction s as [|c s IH]; [done|]. rewrite sapp_cons. simpl. lia. Qed.

Lemma sapp_eq_nil s t : s +:+ t = "" → s = "" ∧ t = "".
Proof. destruct s; [done|]. rewrite sapp_cons. discriminate. Qed.


Lemma all_chars_app p s t :
  all_chars p (s +:+ t) = all_chars p s && all_chars p t.
Proof.
  induction s as [|c s IH]; [done|].
  rewrite sapp_cons. simpl. rewrite IH. by rewrite andb_assoc.
Qed.

Lemma all_chars_mono p q s :
  (∀ c, p c = true → q c = true) → all_chars p s = true →
  all_chars q s = true.
Proof.
  intros Hpq. induction s as [|c s IH]; [done|]. simpl.
  intros [Hc Hs]%andb_true_iff. rewrite (Hpq _ Hc). simpl. auto.
Qed.


Lemma no_pair_inv p s pre a b post :
  no_pair p s = true → s = pre +:+ String a (String b post) →
  p a && p b = false.
Proof.
  revert s. induction pre as [|c pre IH]; intros s Hs ->.
  - rewrite sapp_nil_l in Hs. simpl in Hs.
    apply andb_true_iff in Hs as [Hs _]. by apply negb_true_iff.
  - rewrite sapp_cons in Hs. simpl in Hs.
    apply andb_true_iff in Hs as [_ Hs]. by eapply IH.
Qed.


Lemma lstrip_by_suffix p s : ∃ pre, s = pre +:+ Py.lstrip_by p s.
Proof.
  induction s as [|c s [pre IH]]; [by exists ""|]. simpl.
  destruct (p c).
  - exists (String c pre). by rewrite sapp_cons, <-IH.
  - by exists "".
Qed.

Lemma rstrip_by_prefix p s : ∃ post, s = Py.rstrip_by p s +:+ post.
Proof.
  induction s as [|c s [post IH]]; [by exists ""|]. simpl.
  destruct (Py.rstrip_by p s) as [|d r] eqn:Hr.
  - destruct (p c).
    + by exists (String c s).
    + exists s. rewrite sapp_cons, sapp_nil_l. done.
  - exists post. by rewrite sapp_cons, <-IH.
Qed.

Lemma lstrip_by_head p s : head_not p (Py.lstrip_by p s) = true.
Proof.
  induction s as [|c s IH]; [done|]. simpl.
  destruct (p c) eqn:Hc; [done|]. simpl. by rewrite Hc.
Qed.

Lemma rstrip_by_head p s :
  head_not p s = true → head_not p (Py.rstrip_by p s) = true.
Proof.
  destruct s as [|c s]; [done|]. simpl. intros Hc.
  destruct (Py.rstrip_by p s); [|done].
  apply negb_true_iff in Hc. by rewrite Hc; simpl; rewrite Hc.
Qed.

Lemma rstrip_by_last p s t c :
  Py.rstrip_by p s = t +:+ String c "" → p c = false.
Proof.
  revert t. induction s as [|d s IH]; intros t.
  - simpl. intros H. symmetry in H. by apply sapp_eq_nil in H as [_ ?].
  - simpl. destruct (Py.rstrip_by p s) as [|e r] eqn:Hr.
    + destruct (p d) eqn:Hd.
      * intros H. symmetry in H. by apply sapp_eq_nil in H as [_ ?].
      * destruct t as [|a t].
        -- rewrite sapp_nil_l. by intros [= <-].
        -- rewrite sapp_cons. intros [= _ H]. symmetry in H.
           by apply sapp_eq_nil in H as [_ ?].
    + destruct t as [|a t].
      * rewrite sapp_nil_l. discriminate.
      * rewrite sapp_cons. intros [= _ H]. by eapply IH.
Qed.

Lemma head_not_cons p s c t : head_not p s = true → s = String c t → p c = false.
Proof. intros H ->. by apply negb_true_iff. Qed.

Lemma all_chars_split p s pre post :
  all_chars p s = true → s = pre +:+ post →
  all_chars p pre = true ∧ all_chars p post = true.
Proof. intros H ->. rewrite all_chars_app in H. by apply andb_true_iff. Qed.

Lemma no_pair_app_r p s t : no_pair p (s +:+ t) = true → no_pair p t = true.
Proof.
  induction s as [|c s IH]; [done|]. rewrite sapp_cons. simpl.
  intros [_ H]%andb_true_iff. auto.
Qed.

Lemma no_pair_app_l p s t : no_pair p (s +:+ t) = true → no_pair p s = true.
Proof.
  induction s as [|c s IH]; [done|]. rewrite sapp_cons. simpl.
  intros [H1 H2]%andb_true_iff. rewrite (IH H2), andb_true_r.
  destruct s as [|d s]; [done|]. by rewrite sapp_cons in H1.
Qed.

Lemma no_pair_intro p s :
  (∀ pre a b post, s = pre +:+ String a (String b post) → p a && p b = false) →
  no_pair p s = true.
Proof.
  induction s as [|c s IH]; [done|]. intros H. simpl.
  apply andb_true_iff. split.
  - destruct s as [|d s]; [done|]. apply negb_true_iff. by apply (H "" c d s).
  - apply IH. intros pre a b post ->. apply (H (String c pre) a b post).
    by rewrite sapp_cons.
Qed.

End string_facts.

(** ** [_slugify] *)

Section slugify.

Implicit Types (s t : string) (c : ascii) (p q : ascii → bool).

Lemma lstrip_by_all_chars q p s :
  all_chars q s = true → all_chars q (Py.lstrip_by p s) = true.
Proof.
  intros H. destruct (lstrip_by_suffix p s) as [pre Hpre].
  by destruct (all_chars_split q s pre _ H Hpre).
Qed.

Lemma rstrip_by_all_chars q p s :
  all_chars q s = true → all_chars q (Py.rstrip_by p s) = true.
Proof.
  intros H. destruct (rstrip_by_prefix p s) as [post Hpost].
  by destruct (all_chars_split q s _ post H Hpost).
Qed.

Lemma strip_by_all_chars q p s :
  all_chars q s = true → all_chars q (Py.strip_by p s) = true.
Proof. intros H. by apply rstrip_by_all_chars, lstrip_by_all_chars. Qed.

Lemma strip_by_no_pair q p s :
  no_pair q s = true → no_pair q (Py.strip_by p s) = true.
Proof.
  intros H. unfold Py.strip_by.
  destruct (lstrip_by_suffix p s) as [pre Hpre].
  destruct (rstrip_by_prefix p (Py.lstrip_by p s)) as [post Hpost].
  rewrite Hpre in H. apply no_pair_app_r in H.
  rewrite Hpost in H. by apply no_pair_app_l in H.
Qed.

Lemma strip_by_head p s : head_not p (Py.strip_by p s) = true.
Proof. apply rstrip_by_head, lstrip_by_head. Qed.

Lemma sub_runs_go_all_chars p q rep b s :
  all_chars q rep = true → (∀ c, p c = false → q c = true) →
  all_chars q (Re.sub_runs_go p rep b s) = true.
Proof.
  intros Hrep Hq. revert b. induction s as [|c s IH]; intros b; [done|].
  simpl. destruct (p c) eqn:Hc.
  - destruct b; [done|]. rewrite all_chars_app, Hrep. simpl. apply IH.
  - simpl. rewrite (Hq _ Hc). simpl. apply IH.
Qed.

Lemma collapse_hyphens_go_all_chars q b s :
  q "-"%char = true → all_chars q s = true →
  all_chars q (Re.collapse_hyphens_go b s) = true.
Proof.
  intros Hq. revert b. induction s as [|c s IH]; intros b; [done|].
  intros H. pose proof H as [Hc Hs]%andb_true_iff.
  cbn [Re.collapse_hyphens_go].
  destruct (Chr.is_hyphen c).
  - destruct b; [by apply IH|].
    destruct s as [|d s]; [done|].
    destruct (Chr.is_hyphen d); cbn [all_chars].
    + rewrite Hq. cbn [andb]. by apply IH.
    + rewrite Hc. cbn [andb]. by apply IH.
  - cbn [all_chars]. rewrite Hc. cbn [andb]. by apply IH.
Qed.

Lemma is_hyphen_true c : Chr.is_hyphen c = true ↔ c = "-"%char.
Proof. unfold Chr.is_hyphen. apply bool_decide_eq_true. Qed.

(** The output of the second substitution of [_slugify] has no two hyphens
    side by side; inside a run it does not even start with one. *)
Lemma no_pair_cons p c s :
  no_pair p (String c s) = negb (p c && Re.head_in p s) && no_pair p s.
Proof. destruct s; [|reflexivity]. simpl. by rewrite andb_false_r. Qed.

Lemma head_in_not p s : Re.head_in p s = negb (head_not p s).
Proof. destruct s; [done|]. simpl. by rewrite negb_involutive. Qed.

Lemma collapse_hyphens_go_no_pair b s :
  no_pair Chr.is_hyphen (Re.collapse_hyphens_go b s) = true
  ∧ (b = true → head_not Chr.is_hyphen (Re.collapse_hyphens_go b s) = true).
Proof.
  revert b. induction s as [|c s IH]; intros b; [done|].
  cbn [Re.collapse_hyphens_go].
  destruct (Chr.is_hyphen c) eqn:Hc.
  - destruct b; [apply IH|]. split; [|done].
    destruct s as [|d s]; [done|].
    destruct (Chr.is_hyphen d) eqn:Hd.
    + destruct (IH true) as [IH1 IH2]. specialize (IH2 eq_refl).
      rewrite no_pair_cons, IH1, head_in_not, IH2. by rewrite andb_false_r.
    + destruct (IH false) as [IH1 _].
      rewrite no_pair_cons, IH1. cbn [Re.collapse_hyphens_go]. rewrite Hd.
      simpl. by rewrite Hd, andb_false_r.
  - destruct (IH false) as [IH1 _]. split.
    + by rewrite no_pair_cons, IH1, Hc.
    + intros _. simpl. by rewrite Hc.
Qed.

Lemma slug_char_cases c :
  Chr.is_lower_alnum c || Chr.is_hyphen c = true →
  Chr.is_lower_alnum c = true ∨ c = "-"%char.
Proof.
  intros [H|H]%orb_true_iff; [by left|right]. by apply is_hyphen_true.
Qed.

End slugify.

(** C9. For every input string the output of [_slugify] consists of
    lower-case ASCII letters, digits and hyphens only, has no two hyphens
    side by side, and neither starts nor ends with a hyphen.  [_slugify] is
    a total function (it is defined by structural recursion on every
    string), and the empty input gives the empty output. *)
Theorem slugify_shape (s : string) :
  (∀ pre c post, _slugify s = pre +:+ String c post →
     Chr.is_lower_alnum c = true ∨ c = "-"%char)
  ∧ (∀ pre post, _slugify s ≠ pre +:+ "--" +:+ post)
  ∧ (∀ t, _slugify s ≠ String "-" t)
  ∧ (∀ t, _slugify s ≠ t +:+ "-")
  ∧ _slugify "" = "".
Proof.
  set (q := λ c, Chr.is_lower_alnum c || Chr.is_hyphen c).
  assert (Hall : all_chars q (_slugify s) = true).
  { unfold _slugify. apply strip_by_all_chars.
    apply collapse_hyphens_go_all_chars; [done|].
    apply sub_runs_go_all_chars; [done|].
    intros c Hc. unfold q. apply negb_false_iff in Hc. by rewrite Hc. }
  assert (Hpair : no_pair Chr.is_hyphen (_slugify s) = true).
  { unfold _slugify. apply strip_by_no_pair, collapse_hyphens_go_no_pair. }
  repeat split.
  - intros pre c post Heq.
    destruct (all_chars_split q _ pre _ Hall Heq) as [_ Hc].
    apply andb_true_iff in Hc as [Hc _]. by apply slug_char_cases.
  - intros pre post Heq.
    by pose proof (no_pair_inv _ _ pre "-"%char "-"%char post Hpair Heq).
  - intros t Heq.
    pose proof (strip_by_head Chr.is_hyphen
      (Re.collapse_hyphens
         (Re.sub_runs (λ c, negb (Chr.is_lower_alnum c)) "-"
            (Py.lower (Py.strip s))))) as Hh.
    by pose proof (head_not_cons _ _ _ _ Hh Heq).
  - intros t Heq. unfold _slugify, Py.strip_by in Heq.
    by pose proof (rstrip_by_last _ _ _ _ Heq).
Qed.

(** ** [_is_valid_dir] *)

Section valid_dir.

Implicit Types (s t : string) (c : ascii) (p : ascii → bool).

Lemma lstrip_by_nil p s : Py.lstrip_by p s = "" ↔ all_chars p s = true.
Proof.
  induction s as [|c s IH]; [done|]. simpl.
  destruct (p c); [done|]. split; discriminate.
Qed.

Lemma lstrip_by_one p s d :
  p d = false →
  Py.lstrip_by p s = String d "" ↔
  ∃ t, s = t +:+ String d "" ∧ all_chars p t = true.
Proof.
  intros Hd. induction s as [|c s IH]; simpl.
  - split; [discriminate|]. intros (t & Ht & _).
    symmetry in Ht. by apply sapp_eq_nil in Ht as [_ ?].
  - destruct (p c) eqn:Hc.
    + rewrite IH. split.
      * intros (t & -> & Ht). exists (String c t). simpl. by rewrite Hc.
      * intros ([|a t] & Heq & Ht).
        -- rewrite sapp_nil_l in Heq. injection Heq as -> _. congruence.
        -- rewrite sapp_cons in Heq. injection Heq as -> ->.
           exists t. split; [done|]. simpl in Ht.
           by apply andb_true_iff in Ht as [_ ?].
    + split.
      * intros [= -> ->]. by exists "".
      * intros ([|a t] & Heq & Ht).
        -- rewrite sapp_nil_l in Heq. by injection Heq as -> ->.
        -- rewrite sapp_cons in Heq. injection Heq as -> ->.
           simpl in Ht. rewrite Hc in Ht. done.
Qed.

(** What [_is_valid_dir] accepts: the names of the rule, and those names
    followed by one line feed. *)
Lemma is_valid_dir_accepts s :
  _is_valid_dir s = true ↔
  dir_name_ok s = true
  ∨ ∃ t, s = t +:+ String "010" "" ∧ dir_name_ok t = true.
Proof.
  unfold _is_valid_dir. destruct s as [|c s].
  - split; [done|]. intros [?|(t & Ht & _)]; [done|].
    symmetry in Ht. by apply sapp_eq_nil in Ht as [_ ?].
  - cbn [Re.match_dir dir_name_ok]. rewrite bool_decide_eq_false_2 by done.
    cbn [negb andb]. rewrite !andb_true_iff, orb_true_iff.
    rewrite !bool_decide_eq_true, lstrip_by_nil.
    rewrite (lstrip_by_one _ _ "010"%char) by done. split.
    + intros [Hc [Hs|(t & -> & Ht)]]; [by left|right].
      exists (String c t). split; [done|]. simpl. by rewrite Hc.
    + intros [[Hc Hs]|(t & Heq & Ht)]; [by auto|].
      destruct t as [|a t]; [done|]. rewrite sapp_cons in Heq.
      injection Heq as -> ->. simpl in Ht.
      apply andb_true_iff in Ht as [Hc Ht]. split; [done|]. right. eauto.
Qed.

End valid_dir.

(** C4. [_is_valid_dir] is true on ["My-Plugin_1"] and false on ["../etc"]
    and on [""], as the rule of the specification is; but on ["abc"]
    followed by a line feed it is true, where the rule (every remaining
    character an alphanumeric, a hyphen or an underscore) is false: [$] of
    [_DIR_RE] also holds before a final line feed. *)
Theorem is_valid_dir_trailing_newline :
  _is_valid_dir "My-Plugin_1" = true
  ∧ _is_valid_dir "../etc" = false
  ∧ _is_valid_dir "" = false
  ∧ _is_valid_dir ("abc" +:+ String "010" "") = true
  ∧ dir_name_ok ("abc" +:+ String "010" "") = false.
Proof. repeat split; vm_compute; reflexivity. Qed.

(** ** [str.find], prefixes and slices *)

Section find_facts.

Implicit Types (s t : string) (c : ascii) (i j n : nat).

Lemma prefix_true t s : String.prefix t s = true ↔ ∃ post, s = t +:+ post.
Proof.
  revert s. induction t as [|a t IH]; intros s.
  - split; [by exists s|]. by destruct s.
  - destruct s as [|c s]; simpl.
    + split; [done|]. by intros [post ?].
    + destruct (ascii_dec a c) as [->|Hne].
      * rewrite IH. split; intros [post Hp]; exists post.
        -- by rewrite sapp_cons, <-Hp.
        -- rewrite sapp_cons in Hp. by injection Hp.
      * split; [done|]. intros [post Hp]. rewrite sapp_cons in Hp.
        injection Hp as ??. congruence.
Qed.

Lemma occurs_at_0 t s : occurs_at t s 0 ↔ String.prefix t s = true.
Proof.
  rewrite prefix_true. split.
  - intros ([|??] & post & -> & Hl); [|done]. by exists post.
  - intros [post ->]. by exists "", post.
Qed.

Lemma occurs_at_S t c s i : occurs_at t (String c s) (S i) ↔ occurs_at t s i.
Proof.
  split.
  - intros ([|a pre] & post & Heq & Hl); [done|].
    rewrite sapp_cons in Heq. injection Heq as -> ->. simpl in Hl.
    exists pre, post. split; [done|lia].
  - intros (pre & post & -> & Hl). exists (String c pre), post.
    split; [done|]. simpl. lia.
Qed.

Lemma occurs_at_nil t i : occurs_at t "" (S i) → False.
Proof. by intros ([|a pre] & post & Heq & Hl). Qed.

Lemma find_Some t s i :
  Py.find t s = Some i →
  occurs_at t s i ∧ ∀ j, j < i → ¬ occurs_at t s j.
Proof.
  revert i. induction s as [|c s IH]; intros i.
  - cbn [Py.find]. destruct (String.prefix t "") eqn:Hp; [|done]. intros [= <-].
    split; [by apply occurs_at_0|lia].
  - cbn [Py.find].
    destruct (String.prefix t (String c s)) eqn:Hp.
    + intros [= <-]. split; [by apply occurs_at_0|lia].
    + destruct (Py.find t s) as [i'|] eqn:Hf; [|done]. intros [= <-].
      destruct (IH i' eq_refl) as [Ho Hmin]. split.
      * by apply occurs_at_S.
      * intros [|j] Hj.
        -- rewrite occurs_at_0. congruence.
        -- rewrite occurs_at_S. apply Hmin. lia.
Qed.

Lemma find_None t s : Py.find t s = None → ∀ j, ¬ occurs_at t s j.
Proof.
  induction s as [|c s IH].
  - cbn [Py.find]. destruct (String.prefix t "") eqn:Hp; [done|]. intros _ [|j].
    + rewrite occurs_at_0. congruence.
    + intros ?. by eapply occurs_at_nil.
  - cbn [Py.find].
    destruct (String.prefix t (String c s)) eqn:Hp; [done|].
    destruct (Py.find t s) as [i'|] eqn:Hf; [done|]. intros _ [|j].
    + rewrite occurs_at_0. congruence.
    + rewrite occurs_at_S. by apply IH.
Qed.

Lemma take_drop n s : Py.take n s +:+ Py.drop n s = s.
Proof.
  revert s. induction n as [|n IH]; intros [|c s]; simpl; try done.
  by rewrite sapp_cons, IH.
Qed.

Lemma take_length n s : n ≤ String.length s → String.length (Py.take n s) = n.
Proof.
  revert s. induction n as [|n IH]; intros [|c s]; simpl; try done; try lia.
  intros ?. rewrite IH; lia.
Qed.

Lemma occurs_at_length t s i : occurs_at t s i → i ≤ String.length s.
Proof. intros (pre & post & -> & <-). rewrite sapp_length. lia. Qed.

Lemma occurs_at_drop t s n j :
  n ≤ String.length s → occurs_at t (Py.drop n s) j → occurs_at t s (n + j).
Proof.
  intros Hn (pre & post & Heq & Hl).
  exists (Py.take n s +:+ pre), post. split.
  - by rewrite sapp_assoc, <-Heq, take_drop.
  - rewrite sapp_length, take_length; lia.
Qed.

End find_facts.

(** ** [_first_docblock] and the metadata of an entry file *)

(** C10. When no ["/**"] occurs in the first 8000 characters of the text,
    or the first ["/**"] there is followed by no ["*/"] inside those 8000
    characters, the metadata of the text are all empty: package, author,
    version, link and description. *)
Theorem entry_meta_empty_outside_window (text : string) :
  let head := Py.take 8000 text in
  (∀ i, ¬ occurs_at "/**" head i)
  ∨ (∃ start,
       occurs_at "/**" head start
       ∧ (∀ j, j < start → ¬ occurs_at "/**" head j)
       ∧ ∀ e, start ≤ e → ¬ occurs_at "*/" head e) →
  entry_meta text
  = <["package" := ""]> (<["author" := ""]> (<["version" := ""]>
      (<["link" := ""]> {["description" := ""]}))).
Proof.
  intros head H.
  assert (Hdoc : _first_docblock text = "").
  { unfold _first_docblock. fold head.
    destruct (Py.find "/**" head) as [i|] eqn:Hf; [|done].
    apply find_Some in Hf as [Hi Hmin].
    destruct H as [H|(start & Hs & Hfirst & Hend)]; [by destruct (H i)|].
    assert (i = start) as ->.
    { destruct (lt_eq_lt_dec i start) as [[Hlt| ->]|Hlt]; [|done|].
      - by destruct (Hfirst i Hlt).
      - by destruct (Hmin start Hlt). }
    unfold Py.find_from.
    destruct (Py.find "*/" (Py.drop start head)) as [j|] eqn:Hj; [|done].
    apply find_Some in Hj as [Hj _].
    apply occurs_at_drop in Hj; [|by eapply occurs_at_length].
    destruct (Hend (start + j)); [lia|done]. }
  unfold entry_meta. by rewrite Hdoc.
Qed.

(** A complete block that starts after the first 8000 characters is not
    seen. *)
Lemma entry_meta_empty_outside_window_witness :
  let text := spaces 8000 +:+ "/** @package Foo */" in
  entry_meta text
  = <["package" := ""]> (<["author" := ""]> (<["version" := ""]>
      (<["link" := ""]> {["description" := ""]}))).
Proof.
  intros text. apply (entry_meta_empty_outside_window text).
  left. apply find_None. vm_compute. reflexivity.
Defined.

(** ** [_parse_docblock] *)

Section strip_facts.

Implicit Types (s t : string) (c : ascii) (p : ascii → bool).

Lemma lstrip_by_id p s : head_not p s = true → Py.lstrip_by p s = s.
Proof.
  destruct s as [|c s]; [done|]. simpl. intros Hc.
  apply negb_true_iff in Hc. by rewrite Hc.
Qed.

Lemma rstrip_by_idemp p s : Py.rstrip_by p (Py.rstrip_by p s) = Py.rstrip_by p s.
Proof.
  induction s as [|c s IH]; [done|]. simpl.
  destruct (Py.rstrip_by p s) as [|d r] eqn:Hr.
  - destruct (p c) eqn:Hc; [done|]. simpl. by rewrite Hc.
  - cbn [Py.rstrip_by]. cbn [Py.rstrip_by] in IH. by rewrite IH.
Qed.

Lemma strip_by_idemp p s : Py.strip_by p (Py.strip_by p s) = Py.strip_by p s.
Proof.
  unfold Py.strip_by at 1.
  rewrite lstrip_by_id by apply strip_by_head.
  apply rstrip_by_idemp.
Qed.

Lemma strip_strip s : Py.strip (Py.strip s) = Py.strip s.
Proof. apply strip_by_idemp. Qed.

Lemma rstrip_by_cons_ne p c s : p c = false → Py.rstrip_by p (String c s) ≠ "".
Proof. intros Hc. simpl. destruct (Py.rstrip_by p s); by rewrite ?Hc. Qed.

Lemma strip_by_cons_ne p c s : p c = false → Py.strip_by p (String c s) ≠ "".
Proof.
  intros Hc. unfold Py.strip_by. rewrite lstrip_by_id by (simpl; by rewrite Hc).
  by apply rstrip_by_cons_ne.
Qed.

Lemma strip_last s t c : Py.strip s = t +:+ String c "" → Chr.is_space c = false.
Proof. apply rstrip_by_last. Qed.

Lemma string_snoc s : s ≠ "" → ∃ t c, s = t +:+ String c "".
Proof.
  induction s as [|a s IH]; [done|]. intros _.
  destruct s as [|b s]; [by exists "", a|].
  destruct IH as (t & c & Heq); [done|]. exists (String a t), c.
  by rewrite sapp_cons, <-Heq.
Qed.

Lemma all_chars_last p s t c :
  all_chars p s = true → s = t +:+ String c "" → p c = true.
Proof.
  intros H ->. rewrite all_chars_app in H. apply andb_true_iff in H as [_ H].
  simpl in H. by rewrite andb_true_r in H.
Qed.

Lemma ci_prefix_suffix lit s r : Re.ci_prefix lit s = Some r → ∃ pre, s = pre +:+ r.
Proof.
  revert s. induction lit as [|a lit IH]; intros s; simpl.
  - intros [= ->]. by exists "".
  - destruct s as [|c s]; [done|]. case_bool_decide; [|done].
    intros [pre ->]%IH. by exists (String c pre).
Qed.

Lemma ci_prefix_second a b t a' b' t' s r r' :
  Re.ci_prefix (String a (String b t)) s = Some r →
  Re.ci_prefix (String a' (String b' t')) s = Some r' → b = b'.
Proof.
  destruct s as [|c0 [|c1 s]]; simpl; try done.
  - by case_bool_decide.
  - repeat case_bool_decide; try done. congruence.
Qed.

End strip_facts.

Section parse_docblock.

Implicit Types (line tag : string) (lines : list string).

Lemma docblock_line_clean raw : Py.strip (docblock_line raw) = docblock_line raw.
Proof. apply strip_strip. Qed.

(** On a line without white space at its end, a tag that matches carries a
    value that is not empty. *)
Lemma tag_value_nonempty tag line g :
  Py.strip line = line → tag_value tag line = Some g → g ≠ "".
Proof.
  intros Hline. unfold tag_value, Re.match_tag.
  destruct (Re.ci_prefix tag line) as [r|] eqn:Hp; [|done].
  destruct (Re.run Chr.is_space r) as [|w ws] eqn:Hrun; [done|].
  destruct (Py.lstrip_by Chr.is_space r) as [|c rest] eqn:Hrest.
  - exfalso. apply lstrip_by_nil in Hrest.
    assert (r ≠ "") as Hr by (by destruct r).
    destruct (string_snoc r Hr) as (t & c & Heq).
    pose proof (all_chars_last _ _ _ _ Hrest Heq) as Hc.
    apply ci_prefix_suffix in Hp as [pre Hpre].
    rewrite Heq, <-sapp_assoc in Hpre. rewrite <-Hline in Hpre.
    apply strip_last in Hpre. congruence.
  - pose proof (lstrip_by_head Chr.is_space r) as Hh. rewrite Hrest in Hh.
    simpl in Hh. apply negb_true_iff in Hh.
    assert (Re.is_dot c = true) as Hdot.
    { unfold Re.is_dot. apply negb_true_iff, bool_decide_eq_false.
      intros ->. done. }
    simpl. rewrite Hdot. intros [= <-]. by apply strip_by_cons_ne.
Qed.

End parse_docblock.

Section parse_loop.

Implicit Types (line tag : string) (lines : list string).
Implicit Types (p a v l d : string).

Lemma match_tag_second (a b : ascii) t (a' b' : ascii) t' line g :
  Re.match_tag (String a (String b t)) line = Some g →
  b ≠ b' →
  Re.match_tag (String a' (String b' t')) line = None.
Proof.
  intros Hm Hne. revert Hm. unfold Re.match_tag.
  destruct (Re.ci_prefix (String a (String b t)) line) as [r|] eqn:H1; [|done].
  destruct (Re.ci_prefix (String a' (String b' t')) line) as [r'|] eqn:H2;
    [|done].
  by destruct (Hne (ci_prefix_second _ _ _ _ _ _ _ _ _ H1 H2)).
Qed.

Lemma mk_meta_lookup p a v l d :
  meta_get (mk_meta p a v l d) "package" = p
  ∧ meta_get (mk_meta p a v l d) "author" = a
  ∧ meta_get (mk_meta p a v l d) "version" = v
  ∧ meta_get (mk_meta p a v l d) "link" = l
  ∧ meta_get (mk_meta p a v l d) "description" = d.
Proof. done. Qed.

Lemma mk_meta_set_package p a v l d x :
  <["package" := x]> (mk_meta p a v l d) = mk_meta x a v l d.
Proof. unfold mk_meta. by rewrite insert_insert_eq. Qed.

Lemma mk_meta_set_author p a v l d x :
  <["author" := x]> (mk_meta p a v l d) = mk_meta p x v l d.
Proof.
  unfold mk_meta. rewrite (insert_insert_ne _ "author" "package") by done.
  by rewrite insert_insert_eq.
Qed.

Lemma mk_meta_set_version p a v l d x :
  <["version" := x]> (mk_meta p a v l d) = mk_meta p a x l d.
Proof.
  unfold mk_meta. rewrite (insert_insert_ne _ "version" "package") by done.
  rewrite (insert_insert_ne _ "version" "author") by done.
  by rewrite insert_insert_eq.
Qed.

Lemma mk_meta_set_link p a v l d x :
  <["link" := x]> (mk_meta p a v l d) = mk_meta p a v x d.
Proof.
  unfold mk_meta. rewrite (insert_insert_ne _ "link" "package") by done.
  rewrite (insert_insert_ne _ "link" "author") by done.
  rewrite (insert_insert_ne _ "link" "version") by done.
  by rewrite insert_insert_eq.
Qed.

Lemma parse_tag_mk tag key line p a v l d x :
  meta_get (mk_meta p a v l d) key = x →
  parse_tag tag key line (mk_meta p a v l d)
  = match tag_value tag line with
    | Some g =>
        if bool_decide (x = "") then Some (<[key := g]> (mk_meta p a v l d))
        else None
    | None => None
    end.
Proof.
  intros <-. unfold parse_tag, tag_value.
  by destruct (Re.match_tag tag line).
Qed.

Lemma keep_first_None x : keep_first x None = x.
Proof. unfold keep_first. by case_bool_decide. Qed.

(** One round of the loop of [_parse_docblock] lets every tag keep its
    first value. *)
Lemma parse_line_mk p a v l d line :
  parse_line (mk_meta p a v l d) line
  = mk_meta (keep_first p (tag_value "@package" line))
      (keep_first a (tag_value "@author" line))
      (keep_first v (tag_value "@version" line))
      (keep_first l (tag_value "@link" line)) d.
Proof.
  unfold parse_line.
  rewrite (parse_tag_mk "@package" "package" line p a v l d p) by done.
  rewrite (parse_tag_mk "@author" "author" line p a v l d a) by done.
  rewrite (parse_tag_mk "@version" "version" line p a v l d v) by done.
  rewrite (parse_tag_mk "@link" "link" line p a v l d l) by done.
  unfold tag_value.
  destruct (Re.match_tag "@package" line) as [g|] eqn:Hp.
  { rewrite (match_tag_second _ _ _ "@" "a" "uthor" _ _ Hp) by done.
    rewrite (match_tag_second _ _ _ "@" "v" "ersion" _ _ Hp) by done.
    rewrite (match_tag_second _ _ _ "@" "l" "ink" _ _ Hp) by done.
    cbn [fmap option_fmap option_map]. rewrite !keep_first_None.
    unfold keep_first. case_bool_decide; [|done].
    by rewrite mk_meta_set_package. }
  destruct (Re.match_tag "@author" line) as [g|] eqn:Ha.
  { rewrite (match_tag_second _ _ _ "@" "v" "ersion" _ _ Ha) by done.
    rewrite (match_tag_second _ _ _ "@" "l" "ink" _ _ Ha) by done.
    cbn [fmap option_fmap option_map]. rewrite !keep_first_None.
    unfold keep_first. case_bool_decide; [|done].
    by rewrite mk_meta_set_author. }
  destruct (Re.match_tag "@version" line) as [g|] eqn:Hv.
  { rewrite (match_tag_second _ _ _ "@" "l" "ink" _ _ Hv) by done.
    cbn [fmap option_fmap option_map]. rewrite !keep_first_None.
    unfold keep_first. case_bool_decide; [|done].
    by rewrite mk_meta_set_version. }
  destruct (Re.match_tag "@link" line) as [g|] eqn:Hl.
  { cbn [fmap option_fmap option_map]. rewrite !keep_first_None.
    unfold keep_first. case_bool_decide; [|done].
    by rewrite mk_meta_set_link. }
  cbn [fmap option_fmap option_map]. by rewrite !keep_first_None.
Qed.

Lemma parse_lines_mk p a v l d lines :
  foldl parse_line (mk_meta p a v l d) lines
  = mk_meta (foldl keep_first p (tag_value "@package" <$> lines))
      (foldl keep_first a (tag_value "@author" <$> lines))
      (foldl keep_first v (tag_value "@version" <$> lines))
      (foldl keep_first l (tag_value "@link" <$> lines)) d.
Proof.
  revert p a v l. induction lines as [|line lines IH]; intros p a v l; [done|].
  cbn [foldl fmap list_fmap]. by rewrite parse_line_mk, IH.
Qed.

Lemma keep_first_held x found : x ≠ "" → foldl keep_first x found = x.
Proof.
  intros Hx. induction found as [|o found IH]; [done|]. simpl.
  unfold keep_first at 2. by rewrite bool_decide_eq_false_2.
Qed.

(** When the values carried are not empty, a tag ends with the value of
    the first line that carries it. *)
Lemma keep_first_first_tag tag lines :
  Forall (λ line, Py.strip line = line) lines →
  foldl keep_first "" (tag_value tag <$> lines) = first_tag tag lines.
Proof.
  unfold first_tag. induction 1 as [|line lines Hline _ IH]; [done|].
  cbn [fmap list_fmap foldl omap list_omap].
  destruct (tag_value tag line) as [g|] eqn:Hg.
  - simpl. unfold keep_first at 2. simpl.
    apply keep_first_held. by eapply tag_value_nonempty.
  - by rewrite keep_first_None.
Qed.

Lemma docblock_lines_clean doc :
  Forall (λ line, Py.strip line = line) (_docblock_lines doc).
Proof.
  unfold _docblock_lines. apply Forall_fmap, Forall_forall.
  intros raw _. apply docblock_line_clean.
Qed.

Lemma pick_first_nonempty_plain lines :
  Forall (λ line, Py.strip line = line) lines →
  _pick_first_nonempty lines = first_plain_line lines.
Proof.
  unfold first_plain_line. induction 1 as [|line lines Hline _ IH]; [done|].
  cbn [_pick_first_nonempty List.filter].
  case_bool_decide; [done|]. cbn [negb andb].
  destruct (Py.startswith line "@"); [done|]. by simpl.
Qed.

Lemma parse_docblock_mk doc :
  _parse_docblock doc
  = mk_meta (first_tag "@package" (_docblock_lines doc))
      (first_tag "@author" (_docblock_lines doc))
      (first_tag "@version" (_docblock_lines doc))
      (first_tag "@link" (_docblock_lines doc))
      (first_plain_line (_docblock_lines doc)).
Proof.
  unfold _parse_docblock.
  change (meta_init ?d) with (mk_meta "" "" "" "" d).
  rewrite parse_lines_mk.
  pose proof (docblock_lines_clean doc) as Hclean.
  rewrite !keep_first_first_tag by done.
  by rewrite (pick_first_nonempty_plain _ Hclean).
Qed.

Lemma first_tag_clean tag lines :
  Py.strip (first_tag tag lines) = first_tag tag lines.
Proof.
  unfold first_tag. induction lines as [|line lines IH]; [done|].
  cbn [omap list_omap].
  destruct (tag_value tag line) as [g|] eqn:Hg; [|done].
  cbn [head default]. unfold tag_value in Hg.
  destruct (Re.match_tag tag line) as [g0|]; [|done].
  injection Hg as <-. apply strip_strip.
Qed.

(** The link tag of the metadata of an entry file has no white space
    around it. *)
Lemma entry_meta_link_clean text :
  Py.strip (meta_get (entry_meta text) "link") = meta_get (entry_meta text) "link".
Proof.
  unfold entry_meta. case_bool_decide; [done|].
  rewrite parse_docblock_mk.
  change (meta_get (mk_meta ?p ?a ?v ?l ?d) "link") with l.
  apply first_tag_clean.
Qed.

End parse_loop.

(** C6. For every comment block, [_parse_docblock] gives as description the
    first line (delimiters and white space stripped) that is not empty and
    does not begin with ["@"], and for each of the tags package, author,
    version and link the value of the first line that carries the tag,
    matched without regard to case; later lines with the same tag are
    ignored.  On the block with [@package Foo], [@author Jane],
    [@version 1.2], [@link http://example.com], the first plain line
    ["A sample plugin."] and a second [@author Mallory], it gives exactly
    those five values. *)
Theorem parse_docblock_first_wins (doc : string) :
  let lines := _docblock_lines doc in
  _parse_docblock doc
  = <["package" := first_tag "@package" lines]>
      (<["author" := first_tag "@author" lines]>
         (<["version" := first_tag "@version" lines]>
            (<["link" := first_tag "@link" lines]>
               {["description" := first_plain_line lines]})))
  ∧ _parse_docblock sample_docblock
    = <["package" := "Foo"]>
        (<["author" := "Jane"]>
           (<["version" := "1.2"]>
              (<["link" := "http://example.com"]>
                 {["description" := "A sample plugin."]}))).
Proof.
  intros lines. split.
  - apply parse_docblock_mk.
  - vm_compute. reflexivity.
Qed.

(** ** [_clean_version] *)

Section runs.

Implicit Types (s t r : string) (c : ascii) (p : ascii → bool).

Lemma run_lstrip p s : s = Re.run p s +:+ Py.lstrip_by p s.
Proof.
  induction s as [|c s IH]; [done|]. simpl. destruct (p c); [|done].
  by rewrite sapp_cons, <-IH.
Qed.

Lemma run_all_chars p s : all_chars p (Re.run p s) = true.
Proof.
  induction s as [|c s IH]; [done|]. simpl. destruct (p c) eqn:Hc; [|done].
  simpl. by rewrite Hc.
Qed.

(** A run that is followed by a character outside the class is the
    maximal one. *)
Lemma run_app_stop p t r :
  all_chars p t = true → head_not p r = true →
  Re.run p (t +:+ r) = t ∧ Py.lstrip_by p (t +:+ r) = r.
Proof.
  intros Ht Hr. induction t as [|c t IH].
  - rewrite sapp_nil_l. split; [|by apply lstrip_by_id].
    destruct r as [|d r]; [done|]. simpl in *.
    apply negb_true_iff in Hr. by rewrite Hr.
  - rewrite sapp_cons. simpl in *. apply andb_true_iff in Ht as [Hc Ht].
    rewrite Hc. destruct (IH Ht) as [-> ->]. done.
Qed.

(** A prefix made of characters of the class lies inside the run. *)
Lemma run_app_prefix p t r :
  all_chars p t = true → ∃ u, Re.run p (t +:+ r) = t +:+ u.
Proof.
  intros Ht. induction t as [|c t IH].
  - by exists (Re.run p r).
  - rewrite sapp_cons. simpl in *. apply andb_true_iff in Ht as [Hc Ht].
    rewrite Hc. destruct (IH Ht) as [u ->]. by exists u.
Qed.

Lemma run_app_head p s w :
  head_not p w = true → Re.run p (s +:+ w) = Re.run p s.
Proof.
  intros Hw. induction s as [|c s IH].
  - rewrite sapp_nil_l. destruct w as [|d w]; [done|]. simpl in *.
    apply negb_true_iff in Hw. by rewrite Hw.
  - rewrite sapp_cons. simpl. by rewrite IH.
Qed.

Lemma lstrip_by_app_head p s w :
  head_not p w = true → Py.lstrip_by p (s +:+ w) = Py.lstrip_by p s +:+ w.
Proof.
  intros Hw. induction s as [|c s IH].
  - rewrite sapp_nil_l. by apply lstrip_by_id.
  - rewrite sapp_cons. simpl. by destruct (p c).
Qed.

Lemma sapp_inj_length s t s' t' :
  s +:+ t = s' +:+ t' → String.length s = String.length s' → s = s' ∧ t = t'.
Proof.
  revert s'. induction s as [|c s IH]; intros [|c' s']; simpl; try done.
  rewrite !sapp_cons. intros [= -> Heq] [= Hl].
  destruct (IH _ Heq Hl) as [-> ->]. done.
Qed.

Lemma head_in_cons p c s : Re.head_in p (String c s) = p c.
Proof. done. Qed.

Lemma head_in_drop p s :
  Re.head_in p s = true → ∃ c, p c = true ∧ s = String c (Py.drop 1 s).
Proof. destruct s as [|c s]; [done|]. simpl. eauto. Qed.

End runs.

Section dotted.

Implicit Types (s t r m a b : string) (c : ascii).

Lemma digit_not_period c : Chr.is_digit c = true → Re.is_period c = false.
Proof. destruct c as [[] [] [] [] [] [] [] []]; vm_compute; congruence. Qed.

Lemma space_not_digit c : Chr.is_space c = true → Chr.is_digit c = false.
Proof. destruct c as [[] [] [] [] [] [] [] []]; vm_compute; congruence. Qed.

Lemma space_not_period c : Chr.is_space c = true → Re.is_period c = false.
Proof. destruct c as [[] [] [] [] [] [] [] []]; vm_compute; congruence. Qed.

Lemma is_period_true c : Re.is_period c = true ↔ c = "."%char.
Proof. apply bool_decide_eq_true. Qed.

Lemma digits_run s : Re.run Chr.is_digit s ≠ "" → digits (Re.run Chr.is_digit s).
Proof. intros H. split; [done|apply run_all_chars]. Qed.

Lemma digits_prefix_run b rest :
  digits b → ∃ u, Re.run Chr.is_digit (b +:+ rest) = b +:+ u.
Proof. intros [_ Hb]. by apply run_app_prefix. Qed.

Lemma digits_app_ne b u : digits b → b +:+ u ≠ "".
Proof. intros [Hb _] [? _]%sapp_eq_nil. done. Qed.

(** What a dotted sequence at the start of [s] tells about the runs of
    digits of [s]. *)
Lemma dotted_prefix_inv s m post :
  s = m +:+ post → dotted m →
  ∃ b rest,
    Re.run Chr.is_digit s ≠ ""
    ∧ Py.lstrip_by Chr.is_digit s = "." +:+ b +:+ rest
    ∧ digits b
    ∧ ((m = Re.run Chr.is_digit s +:+ "." +:+ b ∧ post = rest)
       ∨ ∃ c : string, digits c ∧ rest = "." +:+ c +:+ post
              ∧ m = Re.run Chr.is_digit s +:+ "." +:+ b +:+ "." +:+ c).
Proof.
  intros -> (a & b & [Ha1 Ha2] & Hb & [->|(c & Hc & ->)]).
  - rewrite !sapp_assoc.
    destruct (run_app_stop Chr.is_digit a ("." +:+ b +:+ post) Ha2 eq_refl)
      as [-> ->].
    exists b, post. eauto 6.
  - rewrite !sapp_assoc.
    destruct (run_app_stop Chr.is_digit a
                ("." +:+ b +:+ "." +:+ c +:+ post) Ha2 eq_refl) as [-> ->].
    exists b, ("." +:+ c +:+ post). split_and!; [done..|]. right. eauto.
Qed.

Lemma drop_period r b rest :
  r = "." +:+ b +:+ rest → b +:+ rest = Py.drop 1 r.
Proof. by intros ->. Qed.

Lemma match_dotted_here_spec s :
  match Re.match_dotted_here s with
  | Some m =>
      ∃ post, s = m +:+ post ∧ dotted m
        ∧ ∀ m' post', s = m' +:+ post' → dotted m' →
            String.length m' ≤ String.length m
  | None => ∀ m' post', s = m' +:+ post' → ¬ dotted m'
  end.
Proof.
  unfold Re.match_dotted_here.
  set (a := Re.run Chr.is_digit s). set (r1 := Py.lstrip_by Chr.is_digit s).
  assert (Hs : s = a +:+ r1) by apply run_lstrip.
  case_bool_decide as Ha.
  { intros m' post' Heq Hd.
    destruct (dotted_prefix_inv _ _ _ Heq Hd) as (?&?&?&_). done. }
  destruct (Re.head_in Re.is_period r1) eqn:Hr1; cbn [negb]; last first.
  { intros m' post' Heq Hd.
    destruct (dotted_prefix_inv _ _ _ Heq Hd) as (?&?&_&Hl&_).
    fold r1 in Hl. by rewrite Hl in Hr1. }
  apply head_in_drop in Hr1 as (c0 & ->%is_period_true & Hr1).
  set (r := Py.drop 1 r1) in *.
  set (b := Re.run Chr.is_digit r). set (r2 := Py.lstrip_by Chr.is_digit r).
  assert (Hr : r = b +:+ r2) by apply run_lstrip.
  case_bool_decide as Hb.
  { intros m' post' Heq Hd.
    destruct (dotted_prefix_inv _ _ _ Heq Hd) as (b'&rest&_&Hl&Hb'&_).
    fold r1 in Hl. apply drop_period in Hl. fold r in Hl.
    destruct (digits_prefix_run b' rest Hb') as [u Hu].
    rewrite Hl in Hu. fold b in Hu. rewrite Hb in Hu.
    symmetry in Hu. by apply digits_app_ne in Hu. }
  set (c := Re.run Chr.is_digit (Py.drop 1 r2)).
  assert (Hda : digits a) by by apply digits_run.
  assert (Hdb : digits b) by by apply digits_run.
  destruct (Re.head_in Re.is_period r2 && negb (bool_decide (c = ""))) eqn:Hc.
  - apply andb_true_iff in Hc as [Hr2 Hc].
    apply negb_true_iff, bool_decide_eq_false in Hc.
    apply head_in_drop in Hr2 as (c1 & ->%is_period_true & Hr2).
    exists (Py.lstrip_by Chr.is_digit (Py.drop 1 r2)). split_and!.
    + rewrite Hs at 1. rewrite Hr1, Hr. rewrite Hr2 at 1.
      rewrite (run_lstrip Chr.is_digit (Py.drop 1 r2)) at 1. fold c.
      by rewrite !sapp_assoc.
    + exists a, b. split_and!; [done..|]. right. exists c.
      split; [by apply digits_run|done].
    + intros m' post' Heq Hd.
      destruct (dotted_prefix_inv _ _ _ Heq Hd) as (b'&rest&_&Hl&Hb'&Hm).
      fold r1 in Hl. apply drop_period in Hl. fold r in Hl. fold a in Hm.
      destruct Hm as [[-> ->]|(c'&Hc'&->&->)].
      * destruct (digits_prefix_run b' rest Hb') as [u Hu].
        rewrite Hl in Hu. fold b in Hu. rewrite Hu.
        rewrite !sapp_length. simpl. lia.
      * destruct Hb' as [_ Hb'].
        destruct (run_app_stop Chr.is_digit b' ("." +:+ c' +:+ post')
                    Hb' eq_refl) as [Hb1 Hb2].
        rewrite Hl in Hb1, Hb2. fold b in Hb1. fold r2 in Hb2.
        destruct (digits_prefix_run c' post' Hc') as [u Hu].
        assert (c = c' +:+ u) as ->.
        { unfold c. rewrite Hb2. exact Hu. }
        rewrite Hb1. rewrite !sapp_length. simpl. rewrite ?sapp_length.
        simpl. lia.
  - exists r2. split_and!.
    + rewrite Hs at 1. rewrite Hr1, Hr. by rewrite !sapp_assoc.
    + exists a, b. split_and!; [done..|]. by left.
    + intros m' post' Heq Hd.
      destruct (dotted_prefix_inv _ _ _ Heq Hd) as (b'&rest&_&Hl&Hb'&Hm).
      fold r1 in Hl. apply drop_period in Hl. fold r in Hl. fold a in Hm.
      destruct Hm as [[-> ->]|(c'&Hc'&->&->)].
      * destruct (digits_prefix_run b' rest Hb') as [u Hu].
        rewrite Hl in Hu. fold b in Hu. rewrite Hu.
        rewrite !sapp_length. simpl. lia.
      * exfalso. destruct Hb' as [_ Hb'].
        destruct (run_app_stop Chr.is_digit b' ("." +:+ c' +:+ post')
                    Hb' eq_refl) as [Hb1 Hb2].
        rewrite Hl in Hb2. fold r2 in Hb2.
        destruct (digits_prefix_run c' post' Hc') as [u Hu].
        assert (c = c' +:+ u) as Hcu.
        { unfold c. rewrite Hb2. exact Hu. }
        rewrite Hb2, Hcu in Hc. cbn [Re.head_in] in Hc.
        rewrite bool_decide_eq_false_2 in Hc; [done|].
        by apply digits_app_ne.
Qed.

End dotted.

Section search_dotted.

Implicit Types (s t r m pre post : string) (c : ascii).

Lemma search_dotted_cons c s :
  Re.search_dotted (String c s)
  = match Re.match_dotted_here (String c s) with
    | Some m => Some m
    | None => Re.search_dotted s
    end.
Proof. done. Qed.

Lemma length_0_nil s : String.length s = 0 → s = "".
Proof. by destruct s. Qed.

(** [re.search] finds the first dotted sequence. *)
Lemma search_dotted_Some s m : Re.search_dotted s = Some m → first_dotted s m.
Proof.
  revert m. induction s as [|c s IH]; intros m.
  - cbn [Re.search_dotted].
    pose proof (match_dotted_here_spec "") as Hh.
    destruct (Re.match_dotted_here "") as [m0|]; [|done].
    intros [= ->]. destruct Hh as (post & Heq & Hd & Hmax).
    exists "", post. split_and!; [done..|].
    intros pre' m' post' Heq' Hd'.
    destruct pre' as [|c' pre']; [|simpl; lia].
    right. split; [done|]. by eapply Hmax.
  - rewrite search_dotted_cons.
    pose proof (match_dotted_here_spec (String c s)) as Hh.
    destruct (Re.match_dotted_here (String c s)) as [m0|].
    + intros [= ->]. destruct Hh as (post & Heq & Hd & Hmax).
      exists "", post. split_and!; [done..|].
      intros pre' m' post' Heq' Hd'.
      destruct pre' as [|c' pre']; [|simpl; lia].
      right. split; [done|]. by eapply Hmax.
    + intros (pre & post & -> & Hd & Hfirst)%IH.
      exists (String c pre), post. split_and!; [done..|].
      intros pre' m' post' Heq' Hd'. destruct pre' as [|c' pre'].
      * by destruct (Hh m' post' Heq' Hd').
      * rewrite !sapp_cons in Heq'. injection Heq' as _ Heq'.
        destruct (Hfirst _ _ _ Heq' Hd'); simpl; lia.
Qed.

Lemma search_dotted_None s : Re.search_dotted s = None → no_dotted s.
Proof.
  induction s as [|c s IH].
  - cbn [Re.search_dotted].
    pose proof (match_dotted_here_spec "") as Hh.
    destruct (Re.match_dotted_here ""); [done|]. intros _ pre m post Heq Hd.
    destruct pre as [|c' pre]; [|done]. rewrite sapp_nil_l in Heq.
    exact (Hh _ _ Heq Hd).
  - rewrite search_dotted_cons.
    pose proof (match_dotted_here_spec (String c s)) as Hh.
    destruct (Re.match_dotted_here (String c s)); [done|].
    intros Hs pre m post Heq Hd. destruct pre as [|c' pre].
    + rewrite sapp_nil_l in Heq. exact (Hh _ _ Heq Hd).
    + rewrite !sapp_cons in Heq. injection Heq as _ Heq.
      exact (IH Hs _ _ _ Heq Hd).
Qed.

Lemma first_dotted_unique s m m' : first_dotted s m → first_dotted s m' → m = m'.
Proof.
  intros (pre & post & Heq & Hd & Hfirst) (pre' & post' & Heq' & Hd' & Hfirst').
  destruct (Hfirst _ _ _ Heq' Hd') as [?|[Hl1 Hl2]];
    destruct (Hfirst' _ _ _ Heq Hd) as [?|[Hl3 Hl4]]; try lia.
  rewrite Heq' in Heq.
  apply sapp_inj_length in Heq as [_ Heq]; [|done].
  apply sapp_inj_length in Heq as [? _]; [done|lia].
Qed.

Lemma first_dotted_search s m : first_dotted s m → Re.search_dotted s = Some m.
Proof.
  intros Hm. destruct (Re.search_dotted s) as [m'|] eqn:Hs.
  - apply search_dotted_Some in Hs. f_equal. by eapply first_dotted_unique.
  - apply search_dotted_None in Hs.
    destruct Hm as (pre & post & Heq & Hd & _). by destruct (Hs _ _ _ Heq Hd).
Qed.

Lemma no_dotted_search s : no_dotted s → Re.search_dotted s = None.
Proof.
  intros Hn. destruct (Re.search_dotted s) as [m|] eqn:Hs; [|done].
  apply search_dotted_Some in Hs as (pre & post & Heq & Hd & _).
  by destruct (Hn _ _ _ Heq Hd).
Qed.

End search_dotted.

Section strip_search.

Implicit Types (s t r m w x : string) (c : ascii) (p : ascii → bool).

Lemma rstrip_by_split p s :
  ∃ post, s = Py.rstrip_by p s +:+ post ∧ all_chars p post = true.
Proof.
  induction s as [|c s (post & IH & Hpost)]; [by exists ""|]. simpl.
  destruct (Py.rstrip_by p s) as [|d r] eqn:Hr.
  - rewrite sapp_nil_l in IH. subst post. destruct (p c) eqn:Hc.
    + exists (String c s). split; [done|]. simpl. by rewrite Hc.
    + by exists s.
  - exists post. split; [|done]. by rewrite sapp_cons, <-IH.
Qed.

Lemma space_head_digit w : all_chars Chr.is_space w = true → head_not Chr.is_digit w = true.
Proof.
  destruct w as [|c w]; [done|]. simpl. intros [Hc _]%andb_true_iff.
  by rewrite (space_not_digit _ Hc).
Qed.

Lemma space_head_period w :
  all_chars Chr.is_space w = true → Re.head_in Re.is_period w = false.
Proof.
  destruct w as [|c w]; [done|]. simpl. intros [Hc _]%andb_true_iff.
  by apply space_not_period.
Qed.

Lemma head_in_app_space x w :
  all_chars Chr.is_space w = true →
  Re.head_in Re.is_period (x +:+ w) = Re.head_in Re.is_period x.
Proof. intros Hw. destruct x as [|c x]; [|done]. by apply space_head_period. Qed.

Lemma drop_1_app x w : x ≠ "" → Py.drop 1 (x +:+ w) = Py.drop 1 x +:+ w.
Proof. by destruct x. Qed.

Lemma head_in_ne p x : Re.head_in p x = true → x ≠ "".
Proof. by destruct x. Qed.

(** White space after the text does not change the match at its start. *)
Lemma match_dotted_here_app_space x w :
  all_chars Chr.is_space w = true →
  Re.match_dotted_here (x +:+ w) = Re.match_dotted_here x.
Proof.
  intros Hw. pose proof (space_head_digit _ Hw) as Hd.
  unfold Re.match_dotted_here.
  rewrite (run_app_head _ x w Hd), (lstrip_by_app_head _ x w Hd).
  case_bool_decide; [done|].
  rewrite head_in_app_space by done.
  destruct (Re.head_in Re.is_period (Py.lstrip_by Chr.is_digit x)) eqn:H1;
    [|done]. cbn [negb].
  rewrite drop_1_app by by eapply head_in_ne.
  set (r := Py.drop 1 (Py.lstrip_by Chr.is_digit x)).
  rewrite (run_app_head _ r w Hd), (lstrip_by_app_head _ r w Hd).
  case_bool_decide; [done|].
  rewrite head_in_app_space by done.
  destruct (Re.head_in Re.is_period (Py.lstrip_by Chr.is_digit r)) eqn:H2;
    [|done]. cbn [andb].
  rewrite drop_1_app by by eapply head_in_ne.
  by rewrite (run_app_head _ _ w Hd).
Qed.

Lemma match_dotted_here_space c s :
  Chr.is_digit c = false → Re.match_dotted_here (String c s) = None.
Proof. intros Hc. unfold Re.match_dotted_here. simpl. by rewrite Hc. Qed.

Lemma search_dotted_space w :
  all_chars Chr.is_space w = true → Re.search_dotted w = None.
Proof.
  induction w as [|c w IH]; [done|]. simpl all_chars.
  intros [Hc Hw]%andb_true_iff. rewrite search_dotted_cons.
  rewrite match_dotted_here_space by by apply space_not_digit. auto.
Qed.

Lemma search_dotted_app_space x w :
  all_chars Chr.is_space w = true →
  Re.search_dotted (x +:+ w) = Re.search_dotted x.
Proof.
  intros Hw. induction x as [|c x IH].
  - rewrite sapp_nil_l. by apply search_dotted_space.
  - rewrite sapp_cons, !search_dotted_cons. rewrite <-sapp_cons.
    by rewrite match_dotted_here_app_space, IH.
Qed.

Lemma search_dotted_lstrip s :
  Re.search_dotted (Py.lstrip_by Chr.is_space s) = Re.search_dotted s.
Proof.
  induction s as [|c s IH]; [done|]. cbn [Py.lstrip_by].
  destruct (Chr.is_space c) eqn:Hc; [|done].
  rewrite search_dotted_cons.
  by rewrite match_dotted_here_space by by apply space_not_digit.
Qed.

Lemma search_dotted_strip s : Re.search_dotted (Py.strip s) = Re.search_dotted s.
Proof.
  unfold Py.strip, Py.strip_by.
  destruct (rstrip_by_split Chr.is_space (Py.lstrip_by Chr.is_space s))
    as (w & Heq & Hw).
  rewrite <-(search_dotted_lstrip s). rewrite Heq at 2.
  by rewrite search_dotted_app_space.
Qed.

End strip_search.

(** C5 as stated fails: no dotted sequence occurs in ["vV1"], the claim
    strips one leading ["v"] and keeps ["V1"], and [_clean_version] gives
    ["1"]. *)
Lemma clean_version_claim_fails :
  no_dotted "vV1"
  ∧ version_fallback_spec "vV1" = "V1"
  ∧ _clean_version "vV1" = "1"
  ∧ _clean_version "vV1" ≠ version_fallback_spec "vV1".
Proof.
  split; [|by vm_compute]. apply search_dotted_None. by vm_compute.
Qed.

(** C5, amended. For every raw version string [v]: when a dotted numeric
    sequence of two or three components occurs in [v], [_clean_version]
    returns the first one; when none occurs, it returns [v] with the white
    space around it trimmed, all the leading ["v"] and ["V"] stripped,
    underscores converted to dots and the characters outside
    [0-9A-Za-z.+-] removed.  It maps ["v2.3.1-beta"] to ["2.3.1"],
    ["Version 1.0"] to ["1.0"] and [""] to [""]. *)
Theorem clean_version_first_dotted (v : string) :
  (∀ m, first_dotted v m → _clean_version v = m)
  ∧ (no_dotted v →
     _clean_version v
     = Py.filter Chr.is_version_char
         (Py.replace_char "_" "."
            (Py.lstrip_by
               (λ c, bool_decide (c = "v"%char) || bool_decide (c = "V"%char))
               (Py.strip v))))
  ∧ _clean_version "v2.3.1-beta" = "2.3.1"
  ∧ _clean_version "Version 1.0" = "1.0"
  ∧ _clean_version "" = "".
Proof.
  split_and!; try by vm_compute.
  - intros m Hm%first_dotted_search. unfold _clean_version.
    rewrite search_dotted_strip, Hm. case_bool_decide as Hv; [|done].
    rewrite <-search_dotted_strip, Hv in Hm. done.
  - intros Hn%no_dotted_search. unfold _clean_version.
    rewrite search_dotted_strip, Hn. case_bool_decide as Hv; [|done].
    by rewrite Hv.
Qed.

Lemma clean_version_first_dotted_witness :
  _clean_version "release-1.4.2.7 (final)" = "1.4.2"
  ∧ _clean_version "  v_beta 2  " = ".beta2".
Proof.
  split.
  - apply (proj1 (clean_version_first_dotted "release-1.4.2.7 (final)")).
    apply search_dotted_Some. vm_compute. reflexivity.
  - apply (proj1 (proj2 (clean_version_first_dotted "  v_beta 2  "))).
    apply search_dotted_None. vm_compute. reflexivity.
Defined.

(** ** [_make_project]: the donation link *)

Lemma startswith_nil t : t ≠ "" → Py.startswith "" t = false.
Proof. by destruct t. Qed.

Lemma donate_link_cases meta gr :
  Py.strip (meta_get meta "link") = meta_get meta "link" →
  donate_link meta gr
  = let link := meta_get meta "link" in
    if negb (bool_decide (link = "")) && negb (canonical_self_link link)
    then link else homepage_or_empty (homepage gr).
Proof.
  intros Hclean. unfold donate_link, canonical_self_link, homepage_or_empty.
  rewrite Hclean. cbn zeta.
  set (link := meta_get meta "link").
  destruct (bool_decide (link = "")) eqn:Hl; cbn [negb andb].
  - destruct (bool_decide (homepage gr = "")) eqn:Hh; [|done].
    apply bool_decide_eq_true in Hh. by rewrite Hh.
  - destruct (Py.startswith (Py.lower link) "https://github.com/");
      cbn [negb].
    + destruct (bool_decide (homepage gr = "")) eqn:Hh; [|done].
      apply bool_decide_eq_true in Hh. by rewrite Hh.
    + by rewrite Hl.
Qed.

Lemma canonical_self_link_names link :
  canonical_self_link link = true → names_hosting_domain link.
Proof.
  unfold canonical_self_link, Py.startswith. intros [post Hp]%prefix_true.
  exists 8, "https://", ("/" +:+ post). by rewrite Hp.
Qed.

(** C8 as stated fails: the entry file has no link tag and the homepage
    ["HTTPS://EXAMPLE.COM/DONATE"] begins neither with ["http://"] nor with
    ["https://"], so the claim gives an empty donation link, whatever links
    are taken as self-referential; [_make_project] compares the homepage in
    lower case and takes it. *)
Lemma donate_claim_fails :
  let meta_link := meta_get (entry_meta "<?php") "link" in
  let gr := capital_homepage_repo in
  meta_link = ""
  ∧ _make_project "plugin" gr "<?php" !! "donate"
    = Some (VStr "HTTPS://EXAMPLE.COM/DONATE")
  ∧ ∀ self_link : string → bool,
      donate_spec self_link meta_link (homepage gr) = ""
      ∧ _make_project "plugin" gr "<?php" !! "donate"
        ≠ Some (VStr (donate_spec self_link meta_link (homepage gr))).
Proof.
  cbv zeta. split_and!; [by vm_compute..|].
  intros self_link. split; by vm_compute.
Qed.

(** C8, amended. For every built project record, the donation link is the
    link tag of the metadata when that tag is not empty and does not name
    the hosting domain; when the tag is empty or is a link to the hosting
    domain in its canonical form (in lower case it begins with
    ["https://github.com/"]), the donation link is the homepage of the
    repository if the homepage, in lower case, begins with ["http://"] or
    ["https://"], and is empty otherwise.  Nothing is stated for a tag that
    names the hosting domain in another form. *)
Theorem make_project_donate (kind : string) (gr : GithubRepo) (text : string) :
  let link := meta_get (entry_meta text) "link" in
  (link ≠ "" → ¬ names_hosting_domain link →
   _make_project kind gr text !! "donate" = Some (VStr link))
  ∧ (link = "" ∨ canonical_self_link link = true →
     _make_project kind gr text !! "donate"
     = Some (VStr (homepage_or_empty (homepage gr)))).
Proof.
  intros link.
  change (_make_project kind gr text !! "donate")
    with (Some (VStr (donate_link (entry_meta text) gr))).
  rewrite donate_link_cases by apply entry_meta_link_clean.
  fold link. cbn zeta. split.
  - intros Hne Hnames.
    rewrite (bool_decide_eq_false_2 _ Hne).
    destruct (canonical_self_link link) eqn:Hself; [|done].
    by destruct Hnames; apply canonical_self_link_names.
  - intros [He|Hs].
    + by rewrite (bool_decide_eq_true_2 _ He).
    + rewrite Hs. by rewrite andb_false_r.
Qed.

(** A link tag to another site is the donation link; a link tag to the
    hosting domain, written with capitals, gives way to the homepage. *)
Lemma make_project_donate_witness :
  (let text := "<?php /** @link https://example.com/donate */" in
   _make_project "plugin" sample_repo text !! "donate"
   = Some (VStr (meta_get (entry_meta text) "link")))
  ∧ (let text := "<?php /** @link https://GitHub.com/alice/demo */" in
     _make_project "plugin" capital_homepage_repo text !! "donate"
     = Some (VStr (homepage_or_empty (homepage capital_homepage_repo)))).
Proof.
  split; cbv zeta.
  - apply (proj1 (make_project_donate "plugin" sample_repo
                    "<?php /** @link https://example.com/donate */")).
    + by vm_compute.
    + intros [i Hi]. revert Hi. apply find_None. by vm_compute.
  - apply (proj2 (make_project_donate "plugin" capital_homepage_repo
                    "<?php /** @link https://GitHub.com/alice/demo */")).
    right. by vm_compute.
Defined.

(** ** The update of an existing record, field by field *)

Section record_update.

Implicit Types (cur inc : gmap string value) (k : string) (c : option value).

Lemma get_lookup cur k : get cur k = default VNone (cur !! k).
Proof. done. Qed.

Lemma truthy_get_lookup inc k :
  truthy (get inc k) = true → inc !! k = Some (get inc k).
Proof. unfold get. by destruct (inc !! k). Qed.

Lemma fix_dir_lookup_ne cur inc k : k ≠ "dir" → fix_dir cur inc !! k = cur !! k.
Proof.
  intros Hk. unfold fix_dir.
  repeat (match goal with |- context [if ?b then _ else _] => destruct b end);
    by rewrite ?lookup_insert_ne.
Qed.

Lemma default_is_str c t :
  bool_decide (default VNone c = VStr t) = bool_decide (c = Some (VStr t)).
Proof.
  apply bool_decide_ext. destruct c as [v|]; simpl; [|done].
  split; [by intros ->|by intros [= ->]].
Qed.

Lemma field_blank_dir tail c :
  field_blank tail "dir" c
  = negb (truthy_field c) || bool_decide (c = Some (VStr tail)).
Proof. done. Qed.

Lemma field_update_of_dir inc :
  field_update_of inc "dir"
  = if truthy (get inc "dir") then
      if _is_valid_dir (str (get inc "dir")) then Set_to (Some (get inc "dir"))
      else Fill_with (Some (get inc "dir"))
    else Keep.
Proof. done. Qed.

Lemma fix_dir_lookup cur inc :
  fix_dir cur inc !! "dir"
  = apply_update (field_blank (link_tail cur) "dir")
      (field_update_of inc "dir") (cur !! "dir").
Proof.
  rewrite field_update_of_dir. unfold fix_dir.
  destruct (truthy (get inc "dir")) eqn:Hi; [|done]. cbn [andb].
  assert (Hb : negb (truthy (get cur "dir"))
               || bool_decide (get cur "dir" = VStr (link_tail cur))
               = field_blank (link_tail cur) "dir" (cur !! "dir")).
  { rewrite field_blank_dir. unfold truthy_field. rewrite !get_lookup.
    by rewrite default_is_str. }
  rewrite Hb.
  destruct (field_blank (link_tail cur) "dir" (cur !! "dir")) eqn:Hblank.
  - rewrite lookup_insert_eq.
    destruct (_is_valid_dir _); simpl; by rewrite ?Hblank.
  - destruct (_is_valid_dir _); rewrite ?andb_true_r, ?andb_false_r;
      simpl; rewrite ?Hblank; [|done].
    clear Hb. case_bool_decide as Heq; simpl.
    + rewrite <-Heq. apply truthy_get_lookup. by rewrite Heq.
    + by rewrite lookup_insert_eq.
Qed.

Lemma fill_blank_lookup inc cur k0 k :
  fill_blank inc cur k0 !! k
  = if bool_decide (k = k0) then fill_value inc k (cur !! k) else cur !! k.
Proof.
  unfold fill_blank, fill_value, truthy_field. case_bool_decide as Hk.
  - subst k0. rewrite get_lookup.
    destruct (negb _ && _); by rewrite ?lookup_insert_eq.
  - destruct (negb _ && _); by rewrite ?lookup_insert_ne.
Qed.

Lemma fill_value_idemp inc k c :
  fill_value inc k (fill_value inc k c) = fill_value inc k c.
Proof.
  unfold fill_value, truthy_field.
  destruct (truthy (get inc k)) eqn:Hi; rewrite ?andb_false_r; [|done].
  destruct (truthy (default VNone c)) eqn:Hc; simpl; [by rewrite Hc|].
  by rewrite Hi.
Qed.

Lemma foldl_fill_lookup inc ks cur k :
  foldl (fill_blank inc) cur ks !! k
  = if bool_decide (k ∈ ks) then fill_value inc k (cur !! k) else cur !! k.
Proof.
  revert cur. induction ks as [|k0 ks IH]; intros cur; [done|].
  cbn [foldl]. rewrite IH, fill_blank_lookup.
  destruct (decide (k = k0)) as [->|Hne].
  - rewrite (bool_decide_eq_true_2 (k0 = k0)) by done.
    rewrite (bool_decide_eq_true_2 (k0 ∈ k0 :: ks)) by apply list_elem_of_here.
    case_bool_decide; [apply fill_value_idemp|done].
  - rewrite (bool_decide_eq_false_2 (k = k0)) by done.
    rewrite (bool_decide_ext (k ∈ ks) (k ∈ k0 :: ks)); [done|].
    rewrite elem_of_cons. split; [by right|]. by intros [?|?].
Qed.

Lemma default_true_lookup k0 cur k :
  default_true k0 cur !! k
  = if bool_decide (k = k0) then flag_value (cur !! k) else cur !! k.
Proof.
  unfold default_true, flag_value. case_bool_decide as Hk.
  - subst k0. destruct (cur !! k) eqn:Hc; [done|]. by rewrite lookup_insert_eq.
  - destruct (cur !! k0); [done|]. by rewrite lookup_insert_ne.
Qed.

Lemma update_existing_lookup_raw inc cur k :
  update_existing inc cur !! k
  = if bool_decide (k = "direct") then flag_value (cur !! k)
    else if bool_decide (k = "isGithub") then flag_value (cur !! k)
    else if bool_decide (k ∈ fill_keys) then fill_value inc k (cur !! k)
    else fix_dir cur inc !! k.
Proof.
  unfold update_existing.
  rewrite !default_true_lookup, foldl_fill_lookup.
  case_bool_decide as H1.
  { subst k. rewrite (bool_decide_eq_false_2 ("direct" = "isGithub")) by done.
    rewrite (bool_decide_eq_false_2 ("direct" ∈ fill_keys)) by compute_done.
    by rewrite fix_dir_lookup_ne. }
  case_bool_decide as H2.
  { subst k.
    rewrite (bool_decide_eq_false_2 ("isGithub" ∈ fill_keys)) by compute_done.
    by rewrite fix_dir_lookup_ne. }
  case_bool_decide as H3; [|done].
  rewrite fix_dir_lookup_ne; [done|]. intros ->. revert H3. compute_done.
Qed.

(** The update of an existing record acts on each field on its own. *)
Lemma update_existing_lookup inc cur k :
  update_existing inc cur !! k
  = apply_update (field_blank (link_tail cur) k) (field_update_of inc k)
      (cur !! k).
Proof.
  rewrite update_existing_lookup_raw.
  case_bool_decide as H1; [subst k; by destruct (cur !! "direct")|].
  case_bool_decide as H2; [subst k; by destruct (cur !! "isGithub")|].
  case_bool_decide as H3.
  - assert (k ≠ "dir") as Hd by (intros ->; revert H3; compute_done).
    unfold field_update_of, field_blank, fill_value.
    rewrite !(bool_decide_eq_false_2 (k = "dir")) by done.
    rewrite !(bool_decide_eq_true_2 (k ∈ fill_keys)) by done.
    destruct (truthy (get inc k)); simpl;
      by rewrite ?andb_true_r, ?andb_false_r.
  - destruct (decide (k = "dir")) as [->|Hd]; [apply fix_dir_lookup|].
    rewrite fix_dir_lookup_ne by done.
    unfold field_update_of.
    rewrite !(bool_decide_eq_false_2 (k = "dir")) by done.
    rewrite !(bool_decide_eq_false_2 (k ∈ fill_keys)) by done.
    rewrite bool_decide_eq_false_2; [done|].
    rewrite !elem_of_cons, elem_of_nil. intuition.
Qed.

Lemma update_existing_fill inc cur k :
  k ∈ fill_keys → update_existing inc cur !! k = fill_value inc k (cur !! k).
Proof.
  intros Hk. rewrite update_existing_lookup_raw.
  rewrite (bool_decide_eq_false_2 (k = "direct"))
    by (intros ->; revert Hk; compute_done).
  rewrite (bool_decide_eq_false_2 (k = "isGithub"))
    by (intros ->; revert Hk; compute_done).
  by rewrite bool_decide_eq_true_2.
Qed.

Lemma field_update_of_other inc k :
  k ∉ updatable_keys → field_update_of inc k = Keep.
Proof.
  intros Hk. unfold field_update_of, updatable_keys in *.
  rewrite !not_elem_of_cons in Hk. destruct Hk as (?&?&?&?&?&?&?&?&?&?&_).
  rewrite bool_decide_eq_false_2 by done.
  rewrite bool_decide_eq_false_2.
  2:{ unfold fill_keys. rewrite !elem_of_cons, elem_of_nil. intuition. }
  rewrite bool_decide_eq_false_2; [done|].
  rewrite !elem_of_cons, elem_of_nil. intuition.
Qed.

Lemma update_existing_other inc cur k :
  k ∉ updatable_keys → update_existing inc cur !! k = cur !! k.
Proof.
  intros Hk. by rewrite update_existing_lookup, field_update_of_other.
Qed.

Lemma update_existing_same_outside inc cur :
  same_outside updatable_keys cur (update_existing inc cur).
Proof. intros k Hk. by rewrite update_existing_other. Qed.

Lemma update_existing_get_link inc cur :
  get (update_existing inc cur) "link" = get cur "link".
Proof.
  unfold get. rewrite update_existing_other; [done|]. compute_done.
Qed.

Lemma update_existing_get_id inc cur :
  get (update_existing inc cur) "id" = get cur "id".
Proof.
  unfold get. rewrite update_existing_other; [done|]. compute_done.
Qed.

Lemma update_existing_link_tail inc cur :
  link_tail (update_existing inc cur) = link_tail cur.
Proof.
  unfold link_tail. rewrite update_existing_other; [done|]. compute_done.
Qed.

Lemma update_existing_link_key inc cur :
  link_key (update_existing inc cur) = link_key cur.
Proof. unfold link_key. by rewrite update_existing_get_link. Qed.

End record_update.

(** ** The dictionary [by_link] *)

Section by_link.

Implicit Types (m : gmap string nat) (l : list (gmap string value)).
Implicit Types (cur inc it : gmap string value) (L : string).

Lemma index_links_cons m i it l :
  index_links m i (it :: l)
  = index_links (match link_key it with
                 | Some L => <[L := i]> m
                 | None => m
                 end) (S i) l.
Proof. unfold link_key. simpl. by destruct (truthy (get it "link")). Qed.

Lemma index_links_snoc m i l it :
  index_links m i (l ++ [it])
  = match link_key it with
    | Some L => <[L := i + length l]> (index_links m i l)
    | None => index_links m i l
    end.
Proof.
  revert m i. induction l as [|a l IH]; intros m i.
  - rewrite app_nil_l, index_links_cons. simpl. rewrite Nat.add_0_r.
    by destruct (link_key it).
  - rewrite <-app_comm_cons, !index_links_cons, IH. simpl.
    by replace (i + S (length l)) with (S (i + length l)) by lia.
Qed.

Lemma index_links_alter m i l j f :
  (∀ c, link_key (f c) = link_key c) →
  index_links m i (alter f j l) = index_links m i l.
Proof.
  intros Hf. revert m i j. induction l as [|a l IH]; intros m i j; [done|].
  destruct j as [|j]; simpl alter; rewrite !index_links_cons.
  - by rewrite Hf.
  - apply IH.
Qed.

(** A link is bound to the last item that has it. *)
Lemma index_links_last m i l j cur L :
  l !! j = Some cur → link_key cur = Some L →
  (∀ j' c, j < j' → l !! j' = Some c → link_key c ≠ Some L) →
  index_links m i l !! L = Some (i + j).
Proof.
  revert m i j. induction l as [|a l IH] using rev_ind; intros m i j; [done|].
  intros Hj Hcur Hlast. rewrite index_links_snoc.
  destruct (decide (j = length l)) as [->|Hne].
  - rewrite lookup_app_r, Nat.sub_diag in Hj by done. injection Hj as ->.
    rewrite Hcur. by rewrite lookup_insert_eq.
  - assert (j < length l) as Hlt.
    { apply lookup_lt_Some in Hj. rewrite length_app in Hj. simpl in Hj. lia. }
    rewrite lookup_app_l in Hj by done.
    assert (link_key a ≠ Some L) as Ha.
    { apply (Hlast (length l)); [done|].
      by rewrite lookup_app_r, Nat.sub_diag by done. }
    assert (index_links m i l !! L = Some (i + j)) as IH'.
    { apply IH; [done..|]. intros j' c Hj' Hc. apply (Hlast j'); [done|].
      rewrite lookup_app_l; [done|]. by eapply lookup_lt_Some. }
    destruct (link_key a) as [La|]; [|done].
    rewrite lookup_insert_ne; [done|]. congruence.
Qed.

(** What [by_link] holds for a link: an earlier binding, or the position
    of an item with that link. *)
Lemma index_links_Some m i l L j :
  index_links m i l !! L = Some j →
  m !! L = Some j
  ∨ ∃ c, i ≤ j ∧ l !! (j - i) = Some c ∧ link_key c = Some L.
Proof.
  revert m i. induction l as [|a l IH]; intros m i; [by left|].
  rewrite index_links_cons. intros [Hm|(c & Hij & Hc & HL)]%IH.
  - destruct (link_key a) as [La|] eqn:Ha; [|by left].
    destruct (decide (La = L)) as [->|Hne].
    + rewrite lookup_insert_eq in Hm. injection Hm as <-. right.
      exists a. by rewrite Nat.sub_diag.
    + rewrite lookup_insert_ne in Hm by done. by left.
  - right. exists c. split_and!; [lia| |done].
    by replace (j - i) with (S (j - S i)) by lia.
Qed.

Lemma index_links_lt l L j :
  index_links ∅ 0 l !! L = Some j → j < length l.
Proof.
  intros [?|(c & _ & Hc & _)]%index_links_Some; [done|].
  rewrite Nat.sub_0_r in Hc. by eapply lookup_lt_Some.
Qed.

Lemma dom_index_links m i l :
  dom (index_links m i l) = dom m ∪ list_to_set (omap link_key l).
Proof.
  revert m i. induction l as [|a l IH]; intros m i.
  - simpl. set_solver.
  - rewrite index_links_cons, IH. simpl.
    destruct (link_key a) as [La|]; [|done].
    rewrite dom_insert_L. simpl. set_solver.
Qed.

End by_link.

(** ** One round of the loop of [_merge_projects] *)

Section merge_step.

Implicit Types (st : merge_state) (l : list (gmap string value)).
Implicit Types (cur inc : gmap string value) (L : string).

Lemma merge_step_skip st inc : incoming_link inc = "" → merge_step st inc = st.
Proof.
  intros H. unfold merge_step. fold (incoming_link inc).
  by rewrite bool_decide_eq_true_2.
Qed.

Lemma merge_step_update st inc i :
  incoming_link inc ≠ "" → by_link st !! incoming_link inc = Some i →
  merge_step st inc
  = MergeState (alter (update_existing inc) i (out st)) (by_link st)
      (used_ids st).
Proof.
  intros H Hi. unfold merge_step. fold (incoming_link inc).
  by rewrite bool_decide_eq_false_2, Hi.
Qed.

Lemma merge_step_insert st inc :
  incoming_link inc ≠ "" → by_link st !! incoming_link inc = None →
  merge_step st inc
  = MergeState
      (out st
       ++ [<["id" := VStr (unique_id (used_ids st)
                             (str_or_empty (get inc "id"))).1]> inc])
      (<[incoming_link inc := length (out st)]> (by_link st))
      (unique_id (used_ids st) (str_or_empty (get inc "id"))).2.
Proof.
  intros H Hi. unfold merge_step. fold (incoming_link inc).
  rewrite bool_decide_eq_false_2, Hi by done.
  by destruct (unique_id _ _).
Qed.

Lemma incoming_link_key inc :
  incoming_link inc ≠ "" → link_key inc = Some (incoming_link inc).
Proof.
  unfold incoming_link, link_key, str_or_empty.
  by destruct (truthy (get inc "link")).
Qed.

Lemma link_key_set_id inc v : link_key (<["id" := v]> inc) = link_key inc.
Proof. unfold link_key, get. by rewrite lookup_insert_ne. Qed.

Lemma indexed_init l : indexed (merge_init l).
Proof. done. Qed.

Lemma indexed_step st inc : indexed st → indexed (merge_step st inc).
Proof.
  unfold indexed. intros Hst.
  destruct (decide (incoming_link inc = "")) as [He|Hne].
  { by rewrite merge_step_skip. }
  destruct (by_link st !! incoming_link inc) as [i|] eqn:Hi.
  - rewrite (merge_step_update _ _ i) by done. simpl.
    rewrite index_links_alter; [done|]. apply update_existing_link_key.
  - rewrite merge_step_insert by done. simpl.
    rewrite index_links_snoc, link_key_set_id, incoming_link_key by done.
    by rewrite <-Hst.
Qed.

Lemma indexed_run st incoming :
  indexed st → indexed (foldl merge_step st incoming).
Proof.
  revert st. induction incoming as [|inc incoming IH]; intros st Hst; [done|].
  simpl. by apply IH, indexed_step.
Qed.

End merge_step.

(** C3 as stated fails: two records of the catalogue have the link [L],
    and the incoming record with the link [L] matches the first of them,
    whose author is blank while the incoming author is ["Bob"]; yet the
    first record keeps its blank author: [by_link] holds one record for a
    link, the last of the catalogue that has it. *)
Lemma merge_fills_claim_fails :
  ¬ (∀ (existing : list (gmap string value)) (inc cur : gmap string value)
       (i : nat),
       incoming_link inc ≠ "" →
       existing !! i = Some cur →
       link_key cur = Some (incoming_link inc) →
       ∃ cur',
         _merge_projects existing [inc] !! i = Some cur'
         ∧ ∀ k, k ∈ fill_keys →
             cur' !! k
             = if negb (truthy (get cur k)) && truthy (get inc k)
               then Some (get inc k) else cur !! k).
Proof.
  intros H.
  destruct (H [blank_author_record; blank_author_record] bob_record
              blank_author_record 0) as (cur' & Hcur' & Hfill).
  - by vm_compute.
  - done.
  - by vm_compute.
  - assert (cur' = blank_author_record) as ->.
    { vm_compute in Hcur'. by injection Hcur' as <-. }
    specialize (Hfill "author"). vm_compute in Hfill.
    by specialize (Hfill ltac:(repeat constructor)).
Qed.

(** C3, amended. At any point of a merge, when the link of an incoming
    record is the link of a record of the catalogue, each of the fields
    version, typecho, author, donate, description, name and type of the
    record that [by_link] holds for that link (the last record with that
    link, when several share it) is overwritten with the incoming value
    exactly when the existing value is blank and the incoming value is
    not; a field that is set is left as it is.  The catalogue at that point
    is the result of merging the records that came [before].  Existing
    [{link: L, author: "", version: "1.0"}] merged with incoming
    [{link: L, author: "Bob", version: "2.0"}] has author ["Bob"] and
    version ["1.0"]. *)
Theorem merge_fills_blanks :
  (∀ (existing before : list (gmap string value)) (inc : gmap string value)
     (i : nat) (cur : gmap string value),
     incoming_link inc ≠ "" →
     _merge_projects existing before !! i = Some cur →
     link_key cur = Some (incoming_link inc) →
     (∀ j c, i < j → _merge_projects existing before !! j = Some c →
             link_key c ≠ Some (incoming_link inc)) →
     ∃ cur',
       _merge_projects existing (before ++ [inc]) !! i = Some cur'
       ∧ ∀ k, k ∈ fill_keys →
           cur' !! k
           = if negb (truthy (get cur k)) && truthy (get inc k)
             then Some (get inc k) else cur !! k)
  ∧ ∃ cur',
      _merge_projects [blank_author_record] [bob_record] = [cur']
      ∧ cur' !! "author" = Some (VStr "Bob")
      ∧ cur' !! "version" = Some (VStr "1.0").
Proof.
  split.
  - intros existing before inc i cur Hlink Hi Hkey Hlast.
    unfold _merge_projects in *. rewrite foldl_snoc.
    set (st := foldl merge_step (merge_init existing) before) in *.
    assert (indexed st) as Hix by apply indexed_run, indexed_init.
    rewrite (merge_step_update _ _ i); [|done|].
    + cbn [out]. exists (update_existing inc cur). split.
      * by rewrite list_lookup_alter_eq, Hi.
      * intros k Hk. by rewrite update_existing_fill.
    + rewrite Hix. by apply (index_links_last ∅ 0 (out st) i cur).
  - eexists. split; [by vm_compute|]. by vm_compute.
Qed.

(** A catalogue with two records of the same link, and a batch whose first
    record is inserted: the later record of the catalogue is updated by the
    second record of the batch. *)
Lemma merge_fills_blanks_witness :
  ∃ cur',
    _merge_projects [bob_record; blank_author_record]
      ([other_foo_record] ++ [bob_record]) !! 1
    = Some cur'
    ∧ ∀ k, k ∈ fill_keys →
        cur' !! k
        = if negb (truthy (get blank_author_record k))
             && truthy (get bob_record k)
          then Some (get bob_record k) else blank_author_record !! k.
Proof.
  apply (proj1 merge_fills_blanks [bob_record; blank_author_record]
           [other_foo_record] bob_record 1 blank_author_record).
  - vm_compute. discriminate.
  - reflexivity.
  - vm_compute. reflexivity.
  - intros j c Hj Hc. destruct j as [|[|[|j]]]; [lia..| |done].
    vm_compute in Hc. injection Hc as <-. by vm_compute.
Defined.

(** ** What the merger keeps and what it inserts *)

Section frame.

Implicit Types (st : merge_state) (l kept added : list (gmap string value)).
Implicit Types (cur inc a b c : gmap string value) (keys : list string).

Lemma same_outside_refl keys a : same_outside keys a a.
Proof. by intros k _. Qed.

Lemma same_outside_trans keys a b c :
  same_outside keys a b → same_outside keys b c → same_outside keys a c.
Proof. intros Hab Hbc k Hk. by rewrite Hab, Hbc. Qed.

Lemma same_outside_list_refl keys l : Forall2 (same_outside keys) l l.
Proof. apply Forall_Forall2_diag, Forall_forall. intros a _. apply same_outside_refl. Qed.

Lemma same_outside_list_trans keys l1 l2 l3 :
  Forall2 (same_outside keys) l1 l2 → Forall2 (same_outside keys) l2 l3 →
  Forall2 (same_outside keys) l1 l3.
Proof.
  intros H12. revert l3. induction H12 as [|a b l1 l2 Hab _ IH]; intros l3.
  - by intros ->%Forall2_nil_inv_l.
  - intros (c & l3' & Hbc & H23 & ->)%Forall2_cons_inv_l.
    constructor; [by eapply same_outside_trans|by apply IH].
Qed.

Lemma same_outside_alter keys l i f :
  (∀ a, same_outside keys a (f a)) →
  Forall2 (same_outside keys) l (alter f i l).
Proof.
  intros Hf. revert i. induction l as [|a l IH]; intros i; [constructor|].
  destruct i as [|i]; simpl; constructor.
  - apply Hf.
  - apply same_outside_list_refl.
  - apply same_outside_refl.
  - apply IH.
Qed.

Lemma inserted_skip seen inc rest :
  incoming_link inc = "" → inserted seen (inc :: rest) = inserted seen rest.
Proof. intros H. simpl. by rewrite (bool_decide_eq_true_2 _ H). Qed.

Lemma inserted_seen seen inc rest :
  incoming_link inc ∈ seen → inserted seen (inc :: rest) = inserted seen rest.
Proof.
  intros H. simpl. rewrite (bool_decide_eq_true_2 _ H). by rewrite orb_true_r.
Qed.

Lemma inserted_new seen inc rest :
  incoming_link inc ≠ "" → incoming_link inc ∉ seen →
  inserted seen (inc :: rest)
  = inc :: inserted ({[incoming_link inc]} ∪ seen) rest.
Proof.
  intros H1 H2. simpl.
  by rewrite (bool_decide_eq_false_2 _ H1), (bool_decide_eq_false_2 _ H2).
Qed.

(** The loop from any state: the items of [out] stay in place and keep
    their fields that are not updatable; the records inserted follow, in
    the order of the batch. *)
Lemma run_frame st incoming :
  ∃ kept added,
    out (foldl merge_step st incoming) = kept ++ added
    ∧ Forall2 (same_outside updatable_keys) (out st) kept
    ∧ Forall2 (same_outside ("id" :: updatable_keys))
        (inserted (dom (by_link st)) incoming) added.
Proof.
  revert st. induction incoming as [|inc incoming IH]; intros st.
  { exists (out st), []. rewrite app_nil_r. split_and!; [done| |constructor].
    apply same_outside_list_refl. }
  cbn [foldl].
  destruct (decide (incoming_link inc = "")) as [He|Hne].
  { rewrite merge_step_skip, inserted_skip by done. apply IH. }
  destruct (by_link st !! incoming_link inc) as [i|] eqn:Hi.
  - rewrite (merge_step_update _ _ i) by done.
    rewrite inserted_seen by (apply elem_of_dom; eauto).
    destruct (IH (MergeState (alter (update_existing inc) i (out st))
                    (by_link st) (used_ids st)))
      as (kept & added & Hout & Hkept & Hadded).
    exists kept, added. split_and!; [done| |done].
    eapply same_outside_list_trans; [|exact Hkept].
    apply same_outside_alter, update_existing_same_outside.
  - rewrite merge_step_insert by done.
    rewrite inserted_new by (by rewrite ?not_elem_of_dom).
    set (inc2 := <["id" := _]> inc).
    destruct (IH (MergeState (out st ++ [inc2])
                    (<[incoming_link inc := length (out st)]> (by_link st))
                    (unique_id (used_ids st) (str_or_empty (get inc "id"))).2))
      as (kept & added & Hout & Hkept & Hadded).
    cbn [out by_link] in Hkept, Hadded.
    apply Forall2_app_inv_l in Hkept as (k1 & k2 & Hk1 & Hk2 & ->).
    apply Forall2_cons_inv_l in Hk2 as (n & k2' & Hn & ->%Forall2_nil_inv_l & ->).
    exists k1, (n :: added). split_and!.
    + by rewrite Hout, <-app_assoc.
    + done.
    + rewrite dom_insert_L in Hadded. constructor; [|done].
      intros k Hk. apply not_elem_of_cons in Hk as [Hid Hk].
      rewrite <-(Hn k Hk). unfold inc2. by rewrite lookup_insert_ne.
Qed.

End frame.

(** C7. The merged list begins with the existing records in their order,
    each with the same id, the same link and the same value in every field
    but dir, version, typecho, author, donate, description, name, type,
    isGithub and direct; it goes on with the records of the batch that are
    inserted (those with a link that is not empty and was not seen, neither
    in the catalogue nor earlier in the batch), in the order of the batch,
    each as it came but for its id and those ten fields. *)
Theorem merge_keeps_existing (existing incoming : list (gmap string value)) :
  ∃ kept added,
    _merge_projects existing incoming = kept ++ added
    ∧ Forall2 (same_outside updatable_keys) existing kept
    ∧ Forall2 (λ a b, a !! "id" = b !! "id" ∧ a !! "link" = b !! "link")
        existing kept
    ∧ Forall2 (same_outside ("id" :: updatable_keys))
        (inserted (catalogue_links existing) incoming) added.
Proof.
  destruct (run_frame (merge_init existing) incoming)
    as (kept & added & Hout & Hkept & Hadded).
  exists kept, added. split_and!.
  - exact Hout.
  - exact Hkept.
  - eapply Forall2_impl; [exact Hkept|]. intros a b Hab.
    split; apply Hab; compute_done.
  - cbn [merge_init by_link] in Hadded.
    rewrite dom_index_links, dom_empty_L in Hadded.
    by rewrite (left_id_L ∅ (∪)) in Hadded.
Qed.

(** ** [unique_id] *)

Section unique_id.

Implicit Types (used : gset string) (base : string) (i j fuel : nat).

Lemma str_of_nat_inj i j : Py.str_of_nat i = Py.str_of_nat j → i = j.
Proof.
  unfold Py.str_of_nat. intros H.
  assert (Nat.to_uint i = Nat.to_uint j) as Hu.
  { apply (f_equal NilEmpty.uint_of_string) in H.
    rewrite !NilEmpty.usu in H. by injection H. }
  apply (f_equal Nat.of_uint) in Hu. by rewrite !Unsigned.of_to in Hu.
Qed.

Lemma suffixed_inj base i j : suffixed base i = suffixed base j → i = j.
Proof.
  unfold suffixed. intros H. apply String.app_inj in H.
  apply (String.app_inj "-") in H. by apply str_of_nat_inj.
Qed.

(** The loop of [unique_id] stops at the first name that is free, or when
    the fuel is spent. *)
Lemma first_free_spec used base fuel i :
  let r := first_free used base fuel i in
  i ≤ r ≤ i + fuel
  ∧ (∀ j, i ≤ j < r → suffixed base j ∈ used)
  ∧ (r < i + fuel → suffixed base r ∉ used).
Proof.
  revert i. induction fuel as [|fuel IH]; intros i; simpl.
  { split_and!; [lia..|]. intros j ?. lia. }
  case_bool_decide as Hi.
  - destruct (IH (S i)) as (Hr & Hbelow & Hfree). split_and!; [lia..| |].
    + intros j Hj. destruct (decide (j = i)) as [->|]; [done|].
      apply Hbelow. lia.
    + intros ?. apply Hfree. lia.
  - split_and!; [lia..| |done]. intros j ?. lia.
Qed.

(** The names tried are pairwise distinct, so [size used + 1] of them are
    not all in [used]: the fuel is never spent. *)
Lemma first_free_free used base :
  suffixed base (first_free used base (S (size used)) 2) ∉ used.
Proof.
  destruct (first_free_spec used base (S (size used)) 2)
    as (Hr & Hbelow & Hfree).
  set (r := first_free used base (S (size used)) 2) in *.
  destruct (decide (r < 2 + S (size used))) as [Hlt|Hge]; [by apply Hfree|].
  exfalso.
  assert (list_to_set (suffixed base <$> seq 2 (S (size used))) ⊆ used) as Hsub.
  { intros x [j [-> Hj%elem_of_seq]]%elem_of_list_to_set%list_elem_of_fmap.
    apply Hbelow. lia. }
  apply subseteq_size in Hsub.
  rewrite size_list_to_set in Hsub.
  2:{ apply NoDup_fmap_2_strong; [|apply NoDup_seq].
      intros ?? _ _. apply suffixed_inj. }
  rewrite length_fmap, length_seq in Hsub. lia.
Qed.

Lemma unique_id_spec used base :
  ∃ v, unique_id used base = (v, {[v]} ∪ used)
    ∧ (v ∉ used)
    ∧ (((base ∉ used) ∧ v = base)
       ∨ (base ∈ used
          ∧ ∃ i, 2 ≤ i ∧ v = suffixed base i
                 ∧ ∀ j, 2 ≤ j < i → suffixed base j ∈ used)).
Proof.
  unfold unique_id. case_bool_decide as Hb.
  - eexists. split_and!; [done|apply first_free_free|]. right.
    split; [done|]. eexists. split_and!; [|done|].
    + apply (first_free_spec used base (S (size used)) 2).
    + apply (first_free_spec used base (S (size used)) 2).
  - exists base. split_and!; [done..|]. by left.
Qed.

End unique_id.

(** ** The ids of the merged catalogue *)

Section ids.

Implicit Types (st : merge_state) (l : list (gmap string value)).
Implicit Types (cur inc a b : gmap string value).

Lemma ids_tracked_init l : ids_tracked (merge_init l).
Proof.
  intros a Ha Hid. simpl. unfold collect_ids.
  apply elem_of_list_to_set, list_elem_of_omap. exists a. by rewrite Hid.
Qed.

Lemma alter_update_id inc i l j a' :
  alter (update_existing inc) i l !! j = Some a' →
  ∃ a, l !! j = Some a ∧ get a' "id" = get a "id".
Proof.
  rewrite list_lookup_alter. case_decide as Hij.
  - subst j. destruct (l !! i) as [a|]; [|done]. intros [= <-].
    exists a. split; [done|]. apply update_existing_get_id.
  - intros Ha. by exists a'.
Qed.

Lemma get_set_id inc v : get (<["id" := v]> inc) "id" = v.
Proof. unfold get. by rewrite lookup_insert_eq. Qed.

Lemma ids_step st inc :
  ids_distinct (out st) → ids_tracked st →
  ids_distinct (out (merge_step st inc)) ∧ ids_tracked (merge_step st inc).
Proof.
  intros Hd Ht.
  destruct (decide (incoming_link inc = "")) as [He|Hne].
  { by rewrite merge_step_skip. }
  destruct (by_link st !! incoming_link inc) as [i|] eqn:Hi.
  - rewrite (merge_step_update _ _ i) by done. cbn [out]. split.
    + intros i' j' a' b' Ha' Hb' Htr Heq.
      apply alter_update_id in Ha' as (a & Ha & Hida).
      apply alter_update_id in Hb' as (b & Hb & Hidb).
      rewrite Hida in Htr. rewrite Hida, Hidb in Heq. by eapply Hd.
    + intros a' [j Ha']%list_elem_of_lookup Htr. cbn [used_ids out] in *.
      apply alter_update_id in Ha' as (a & Ha & Hida).
      rewrite Hida in Htr |- *. apply Ht; [|done].
      apply list_elem_of_lookup. eauto.
  - rewrite merge_step_insert by done.
    destruct (unique_id_spec (used_ids st) (str_or_empty (get inc "id")))
      as (v & -> & Hv & _).
    cbn [fst snd out used_ids]. set (inc2 := <["id" := VStr v]> inc).
    assert (Hold : ∀ j a, out st !! j = Some a → get a "id" ≠ VStr v
                          ∨ truthy (get a "id") = false).
    { intros j a Ha. destruct (truthy (get a "id")) eqn:Htr; [|by right].
      left. intros Heq. apply Hv.
      assert (str (get a "id") = v) as <- by by rewrite Heq.
      apply Ht; [|done]. apply list_elem_of_lookup. eauto. }
    split.
    + intros i' j' a b Ha Hb Htr Heq.
      apply lookup_app_Some in Ha as [Ha|[Hi' Ha]];
        apply lookup_app_Some in Hb as [Hb|[Hj' Hb]].
      * by eapply Hd.
      * apply list_lookup_singleton_Some in Hb as [_ <-].
        unfold inc2 in Heq. rewrite get_set_id in Heq.
        destruct (Hold _ _ Ha); congruence.
      * apply list_lookup_singleton_Some in Ha as [_ <-].
        unfold inc2 in Heq, Htr. rewrite get_set_id in Heq, Htr.
        destruct (Hold _ _ Hb) as [?|Hf]; [congruence|].
        rewrite <-Heq in Hf. congruence.
      * apply list_lookup_singleton_Some in Ha as [? _].
        apply list_lookup_singleton_Some in Hb as [? _]. lia.
    + intros a [Ha| ->%list_elem_of_singleton]%elem_of_app Htr.
      * apply elem_of_union_r. by apply Ht.
      * unfold inc2. rewrite get_set_id. simpl. set_solver.
Qed.

Lemma ids_run st incoming :
  ids_distinct (out st) → ids_tracked st →
  ids_distinct (out (foldl merge_step st incoming)).
Proof.
  revert st. induction incoming as [|inc incoming IH]; intros st Hd Ht;
    [done|].
  simpl. destruct (ids_step st inc Hd Ht). by apply IH.
Qed.

(** What a round does with a record whose link is new. *)
Lemma merge_step_new st inc :
  incoming_link inc ≠ "" → by_link st !! incoming_link inc = None →
  let base := str_or_empty (get inc "id") in
  ∃ v,
    out (merge_step st inc) = out st ++ [<["id" := VStr v]> inc]
    ∧ used_ids (merge_step st inc) = {[v]} ∪ used_ids st
    ∧ (v ∉ used_ids st)
    ∧ (((base ∉ used_ids st) ∧ v = base)
       ∨ (base ∈ used_ids st
          ∧ ∃ i, 2 ≤ i ∧ v = suffixed base i
                 ∧ ∀ j, 2 ≤ j < i → suffixed base j ∈ used_ids st)).
Proof.
  intros Hne Hi base. rewrite merge_step_insert by done.
  destruct (unique_id_spec (used_ids st) base) as (v & Hu & Hv & Hcases).
  fold base. rewrite Hu. by exists v.
Qed.

End ids.

(** C2 as stated fails: the ids that are not empty of the catalogue
    (there is none) are pairwise distinct, yet two records of the merged
    catalogue have the same id, the empty one: an empty id is not entered
    in [used_ids]. *)
Lemma merge_ids_claim_fails :
  ids_distinct [no_id_record_1; no_id_record_2]
  ∧ ¬ all_ids_distinct
        (_merge_projects [no_id_record_1; no_id_record_2] [other_foo_record]).
Proof.
  split.
  - intros i j a b Ha Hb Htr _.
    destruct i as [|[|i]]; simplify_eq/=; by vm_compute in Htr.
  - intros H.
    assert (0 = 1) as Heq; [|done].
    apply (H 0 1 no_id_record_1 no_id_record_2); by vm_compute.
Qed.

(** C2, amended. For every catalogue whose ids that are not empty are
    pairwise distinct and every batch, the ids that are not empty of the
    merged catalogue are pairwise distinct.  A record with a new link gets
    the id it came with when that id is not in [used_ids] (the ids of the
    catalogue and those given earlier in the pass), and otherwise that id
    followed by ["-2"], ["-3"], ...: the first such name that is not in
    [used_ids]; the id it gets is entered in [used_ids].  With id
    ["plugin-foo"] in the catalogue, an incoming record with a new link and
    the id ["plugin-foo"] is appended with the id ["plugin-foo-2"]. *)
Theorem merge_ids_distinct :
  (∀ existing incoming : list (gmap string value),
     ids_distinct existing →
     ids_distinct (_merge_projects existing incoming))
  ∧ (∀ (st : merge_state) (inc : gmap string value),
       incoming_link inc ≠ "" → by_link st !! incoming_link inc = None →
       let base := str_or_empty (get inc "id") in
       ∃ v,
         out (merge_step st inc) = out st ++ [<["id" := VStr v]> inc]
         ∧ used_ids (merge_step st inc) = {[v]} ∪ used_ids st
         ∧ (v ∉ used_ids st)
         ∧ (((base ∉ used_ids st) ∧ v = base)
            ∨ (base ∈ used_ids st
               ∧ ∃ i, 2 ≤ i ∧ v = suffixed base i
                      ∧ ∀ j, 2 ≤ j < i → suffixed base j ∈ used_ids st)))
  ∧ _merge_projects [foo_record] [other_foo_record]
    = [foo_record; <["id" := VStr "plugin-foo-2"]> other_foo_record].
Proof.
  split_and!.
  - intros existing incoming Hd. unfold _merge_projects.
    apply ids_run; [done|apply ids_tracked_init].
  - apply merge_step_new.
  - by vm_compute.
Qed.

(** A catalogue that holds ["plugin-foo"] and ["plugin-foo-2"], and two
    incoming records with new links and the id ["plugin-foo"]. *)
Lemma merge_ids_distinct_witness :
  let existing := [foo_record; <["id" := VStr "plugin-foo-2"]> other_foo_record] in
  let incoming :=
    [ <["link" := VStr "https://github.com/c/foo"]> foo_record;
      <["link" := VStr "https://github.com/d/foo"]> foo_record ] in
  ids_distinct existing
  ∧ ids_distinct (_merge_projects existing incoming)
  ∧ (λ a, get a "id") <$> _merge_projects existing incoming
    = [VStr "plugin-foo"; VStr "plugin-foo-2"; VStr "plugin-foo-3";
       VStr "plugin-foo-4"].
Proof.
  intros existing incoming.
  assert (ids_distinct existing) as Hd.
  { intros i j a b Ha Hb _ Heq.
    destruct i as [|[|i]]; destruct j as [|[|j]]; simplify_eq/=;
      first [done|by vm_compute in Heq]. }
  split_and!; [done| |by vm_compute].
  apply (proj1 merge_ids_distinct existing incoming). exact Hd.
Defined.

(** ** Updates of one field *)

Section field_updates.

Context (blank : option value → bool).
Implicit Types (u d : field_update) (c v : option value).

Lemma then_update_apply u1 u2 c :
  apply_update blank (then_update blank u1 u2) c
  = apply_update blank u2 (apply_update blank u1 c).
Proof.
  destruct u2 as [|x|x], u1 as [|y|y]; simpl; try done.
  destruct (blank c) eqn:Hc; [done|]. by rewrite Hc.
Qed.

(** A run of updates of a field is one update. *)
Lemma updates_as_one {A} (g : A → field_update) (ps : list A) :
  ∃ u, ∀ c,
    foldl (λ c p, apply_update blank (g p) c) c ps = apply_update blank u c.
Proof.
  induction ps as [|p ps [u IH]]; [by exists Keep|].
  exists (then_update blank (g p) u). intros c. simpl.
  by rewrite IH, then_update_apply.
Qed.

(** An update that comes again after updates that changed nothing changes
    nothing. *)
Lemma apply_absorb u d v :
  apply_update blank u v = v →
  apply_update blank d (apply_update blank u (apply_update blank d v))
  = apply_update blank d v.
Proof.
  destruct u as [|c|a], d as [|x|x]; simpl; intros H; subst; try done.
  - destruct (blank v) eqn:Hv; [|by rewrite Hv].
    destruct (blank x) eqn:Hx; by rewrite ?Hx.
  - destruct (blank v) eqn:Hv; simpl.
    + subst a. destruct (blank x) eqn:Hx; by rewrite ?Hv, ?Hx.
    + by rewrite !Hv.
Qed.

Lemma updates_absorb {A} (g : A → field_update) (ps : list A) d v :
  foldl (λ c p, apply_update blank (g p) c) v ps = v →
  apply_update blank d
    (foldl (λ c p, apply_update blank (g p) c) (apply_update blank d v) ps)
  = apply_update blank d v.
Proof.
  destruct (updates_as_one g ps) as [u Hu]. rewrite !Hu.
  apply apply_absorb.
Qed.

End field_updates.

(** ** Updates of one record *)

Section record_updates.

Implicit Types (cur inc r : gmap string value) (ps : list (gmap string value)).
Implicit Types (k : string).

Lemma update_all_cons p ps r :
  update_all (p :: ps) r = update_all ps (update_existing p r).
Proof. done. Qed.

Lemma update_all_link_tail ps r : link_tail (update_all ps r) = link_tail r.
Proof.
  revert r. induction ps as [|p ps IH]; intros r; [done|].
  by rewrite update_all_cons, IH, update_existing_link_tail.
Qed.

Lemma update_all_lookup ps r k :
  update_all ps r !! k
  = foldl (λ c p, apply_update (field_blank (link_tail r) k)
                    (field_update_of p k) c)
      (r !! k) ps.
Proof.
  revert r. induction ps as [|p ps IH]; intros r; [done|].
  rewrite update_all_cons, IH, update_existing_link_tail. simpl.
  by rewrite update_existing_lookup.
Qed.

(** A record that the updates by [ps] leave as it is, updated by [inc]:
    the updates by [ps] and one more by [inc] leave it as it is. *)
Lemma update_absorb inc ps r :
  update_all ps r = r →
  update_existing inc (update_all ps (update_existing inc r))
  = update_existing inc r.
Proof.
  intros Hr. apply map_eq. intros k.
  rewrite update_existing_lookup, update_all_link_tail,
    update_existing_link_tail.
  rewrite update_all_lookup, update_existing_link_tail.
  rewrite (update_existing_lookup inc r).
  apply updates_absorb. by rewrite <-update_all_lookup, Hr.
Qed.

(** A record that was inserted is left as it is by the record it was made
    from. *)
Lemma update_self inc v :
  is_Some (inc !! "isGithub") → is_Some (inc !! "direct") →
  update_existing inc (<["id" := v]> inc) = <["id" := v]> inc.
Proof.
  intros [g Hg] [d Hd]. apply map_eq. intros k.
  rewrite update_existing_lookup_raw.
  case_bool_decide as H1.
  { subst k. rewrite lookup_insert_ne by done. by rewrite Hd. }
  case_bool_decide as H2.
  { subst k. rewrite lookup_insert_ne by done. by rewrite Hg. }
  case_bool_decide as H3.
  { assert (k ≠ "id") as Hid by (intros ->; revert H3; compute_done).
    rewrite lookup_insert_ne by done. unfold fill_value, truthy_field.
    destruct (truthy (get inc k)) eqn:Hk; [|by rewrite andb_false_r].
    rewrite (truthy_get_lookup _ _ Hk). simpl. by rewrite Hk. }
  destruct (decide (k = "dir")) as [->|Hdir]; [|by apply fix_dir_lookup_ne].
  rewrite fix_dir_lookup, field_update_of_dir, lookup_insert_ne by done.
  destruct (truthy (get inc "dir")) eqn:Hk; [|done].
  rewrite (truthy_get_lookup _ _ Hk).
  destruct (_is_valid_dir _); simpl; [done|]. by destruct (field_blank _ _ _).
Qed.

End record_updates.

(** ** Merging a batch whose links are all known *)

Section replay.

Implicit Types (st : merge_state) (l : list (gmap string value)).
Implicit Types (links : gmap string nat) (p inc : gmap string value).
Implicit Types (ps : list (gmap string value)) (i j n : nat).

Lemma replay_step_lookup links l p j :
  replay_step links l p !! j
  = if targets links j p then update_existing p <$> l !! j else l !! j.
Proof.
  unfold replay_step, targets. case_bool_decide as He; [done|]. cbn [negb andb].
  destruct (links !! incoming_link p) as [i|] eqn:Hi.
  - rewrite list_lookup_alter. case_decide as Hij.
    + subst j. by rewrite bool_decide_eq_true_2.
    + rewrite bool_decide_eq_false_2; [done|]. congruence.
  - by rewrite bool_decide_eq_false_2.
Qed.

(** Each item of the catalogue goes through the updates by the records
    that have its link. *)
Lemma replay_lookup links l ps j :
  replay links l ps !! j
  = update_all (List.filter (targets links j) ps) <$> l !! j.
Proof.
  unfold replay. revert l. induction ps as [|p ps IH]; intros l.
  - simpl. by destruct (l !! j).
  - cbn [foldl List.filter]. rewrite IH, replay_step_lookup.
    destruct (targets links j p); [|done].
    rewrite <-option_fmap_compose. by destruct (l !! j).
Qed.

Lemma replay_snoc links l ps p :
  replay links l (ps ++ [p]) = replay_step links (replay links l ps) p.
Proof. apply foldl_snoc. Qed.

Lemma replay_step_length links l p : length (replay_step links l p) = length l.
Proof.
  unfold replay_step. case_bool_decide; [done|].
  destruct (links !! incoming_link p); [apply length_alter|done].
Qed.

(** A new binding and a new last item do not disturb the updates of the
    items before. *)
Lemma replay_extend links L l x ps :
  links !! L = None →
  (∀ L' j, links !! L' = Some j → j < length l) →
  Forall (known links) ps →
  replay (<[L := length l]> links) (l ++ [x]) ps = replay links l ps ++ [x].
Proof.
  intros HL. unfold replay. revert l.
  induction ps as [|p ps IH]; intros l Hlt Hps; [done|].
  apply Forall_cons in Hps as [Hp Hps]. cbn [foldl].
  assert (replay_step (<[L := length l]> links) (l ++ [x]) p
          = replay_step links l p ++ [x]) as ->.
  { unfold replay_step. case_bool_decide as He; [done|].
    destruct Hp as [?|[j Hj]]; [done|].
    rewrite lookup_insert_ne by congruence. rewrite Hj.
    apply alter_app_l. by eapply Hlt. }
  rewrite <-(replay_step_length links l p). apply IH; [|done].
  intros L' j Hj. rewrite replay_step_length. by eapply Hlt.
Qed.

Lemma known_insert links L n p : known links p → known (<[L := n]> links) p.
Proof.
  intros [?|Hp]; [by left|right].
  rewrite lookup_insert. case_decide; [done|]. done.
Qed.

(** The loop is [replay] when every link is known. *)
Lemma run_known st ps :
  Forall (known (by_link st)) ps →
  foldl merge_step st ps
  = MergeState (replay (by_link st) (out st) ps) (by_link st) (used_ids st).
Proof.
  revert st. induction ps as [|p ps IH]; intros st Hps; [by destruct st|].
  apply Forall_cons in Hps as [Hp Hps]. cbn [foldl].
  destruct (decide (incoming_link p = "")) as [He|Hne].
  { rewrite merge_step_skip, IH by done. unfold replay at 2. cbn [foldl].
    unfold replay_step at 2. by rewrite bool_decide_eq_true_2. }
  destruct Hp as [?|[i Hi]]; [done|].
  rewrite (merge_step_update _ _ i) by done. rewrite IH by done.
  cbn [out by_link used_ids]. unfold replay at 2. cbn [foldl].
  unfold replay_step at 2. by rewrite bool_decide_eq_false_2, Hi.
Qed.

End replay.

(** ** Merging the same batch twice *)

Section idempotence.

Implicit Types (st : merge_state) (l : list (gmap string value)).
Implicit Types (p inc : gmap string value) (ps : list (gmap string value)).

Lemma settled_nil st : settled st [].
Proof. by split. Qed.

(** One round keeps the catalogue settled for the records seen so far. *)
Lemma settled_step st ps inc :
  indexed st → settled st ps →
  is_Some (inc !! "isGithub") → is_Some (inc !! "direct") →
  settled (merge_step st inc) (ps ++ [inc]).
Proof.
  intros Hix [Hre Hps] Hg Hd. unfold settled. rewrite replay_snoc.
  destruct (decide (incoming_link inc = "")) as [He|Hne].
  { rewrite merge_step_skip by done. rewrite Hre. split.
    - unfold replay_step. by rewrite bool_decide_eq_true_2.
    - apply Forall_app. split; [done|]. apply Forall_singleton. by left. }
  destruct (by_link st !! incoming_link inc) as [i|] eqn:Hi.
  - rewrite (merge_step_update _ _ i) by done. cbn [out by_link]. split.
    + unfold replay_step at 1. rewrite bool_decide_eq_false_2, Hi by done.
      apply list_eq. intros j.
      rewrite !list_lookup_alter, !replay_lookup. case_decide as Hij.
      * subst j. rewrite list_lookup_alter_eq.
        pose proof (f_equal (.!! i) Hre) as Hri. rewrite replay_lookup in Hri.
        destruct (out st !! i) as [r|]; [|done]. simpl in *.
        injection Hri as Hri. f_equal. by apply update_absorb.
      * rewrite list_lookup_alter_ne by done.
        rewrite <-replay_lookup. by rewrite Hre.
    + apply Forall_app. split; [done|]. apply Forall_singleton. right. eauto.
  - rewrite merge_step_insert by done. cbn [out by_link].
    set (inc2 := <["id" := _]> inc). split.
    + rewrite replay_extend; [|done| |done].
      * rewrite Hre. unfold replay_step.
        rewrite bool_decide_eq_false_2, lookup_insert_eq by done.
        rewrite alter_app_r_alt by done. rewrite Nat.sub_diag. simpl.
        unfold inc2. by rewrite update_self.
      * intros L' j Hj. rewrite Hix in Hj. by eapply index_links_lt.
    + apply Forall_app. split.
      * eapply Forall_impl; [exact Hps|]. intros p. apply known_insert.
      * apply Forall_singleton. right. rewrite lookup_insert_eq. eauto.
Qed.

Lemma built_like_flags inc :
  built_like inc → is_Some (inc !! "isGithub") ∧ is_Some (inc !! "direct").
Proof. intros (_ & -> & ->). eauto. Qed.

Lemma settled_run incoming st ps :
  indexed st → settled st ps → Forall built_like incoming →
  settled (foldl merge_step st incoming) (ps ++ incoming).
Proof.
  revert st ps.
  induction incoming as [|inc incoming IH]; intros st ps Hix Hst Hb.
  { by rewrite app_nil_r. }
  apply Forall_cons in Hb as [[Hg Hd]%built_like_flags Hb]. cbn [foldl].
  rewrite (cons_middle inc ps incoming), app_assoc.
  apply IH; [by apply indexed_step|by apply settled_step|done].
Qed.

Lemma make_project_built_like kind gr text :
  built_like (_make_project kind gr text).
Proof.
  split_and!; [|done..].
  change (get (_make_project kind gr text) "link")
    with (VStr (or_str (html_url gr)
                  ("https://github.com/" +:+ owner gr +:+ "/" +:+ repo gr))).
  unfold or_str, truthy. apply negb_true_iff, bool_decide_eq_false.
  by case_bool_decide.
Qed.

End idempotence.

(** C1. Merging a batch into a catalogue twice gives the catalogue that
    merging it once gives: for every list of existing records and every
    batch of records that have, as the records of the project builder
    have, a link that is not empty and the flags isGithub and direct set,
    [merge (merge C B) B = merge C B]; no record is appended and no id
    changes in the second merge.  Every record that [_make_project] builds
    is such a record. *)
Theorem merge_idempotent :
  (∀ existing incoming : list (gmap string value),
     Forall built_like incoming →
     _merge_projects (_merge_projects existing incoming) incoming
     = _merge_projects existing incoming)
  ∧ ∀ kind gr text, built_like (_make_project kind gr text).
Proof.
  split; [|apply make_project_built_like].
  intros existing incoming Hb.
  set (st := foldl merge_step (merge_init existing) incoming).
  assert (_merge_projects existing incoming = out st) as -> by done.
  assert (indexed st) as Hix by apply indexed_run, indexed_init.
  destruct (settled_run incoming (merge_init existing) []
              (indexed_init existing) (settled_nil _) Hb) as [Hre Hknown].
  fold st in Hre, Hknown. rewrite app_nil_l in Hre, Hknown.
  unfold _merge_projects. rewrite run_known.
  - cbn [out merge_init by_link]. by rewrite <-Hix.
  - cbn [merge_init by_link]. by rewrite <-Hix.
Qed.

(** A catalogue with one record, and a batch of three built records of
    which two have its link. *)
Lemma merge_idempotent_witness :
  Forall built_like sample_batch
  ∧ _merge_projects (_merge_projects [blank_author_record] sample_batch)
      sample_batch
    = _merge_projects [blank_author_record] sample_batch
  ∧ length (_merge_projects [blank_author_record] sample_batch) = 2.
Proof.
  assert (Forall built_like sample_batch) as Hb.
  { repeat constructor; vm_compute; reflexivity. }
  split_and!; [done| |by vm_compute].
  apply (proj1 merge_idempotent [blank_author_record] sample_batch). exact Hb.
Defined.

(** ** Directory names: what [_is_valid_dir] lets through *)

Section dir_names.

Implicit Types (s t : string) (c : ascii) (p : ascii → bool).

Lemma dir_char_plain c :
  Chr.is_dir_char c = true ∨ c = "010"%char →
  c ≠ "/"%char ∧ c ≠ "\"%char ∧ c ≠ "."%char ∧ c ≠ " "%char.
Proof.
  intros [H| ->]; [|done].
  split_and!; intros ->; by vm_compute in H.
Qed.

Lemma dir_name_ok_chars s :
  dir_name_ok s = true → all_chars Chr.is_dir_char s = true.
Proof.
  destruct s as [|c s]; [done|]. simpl. intros [Hc Hs]%andb_true_iff.
  rewrite Hs, andb_true_r. unfold Chr.is_dir_char. by rewrite Hc.
Qed.

Lemma all_chars_at p s pre c post :
  all_chars p s = true → s = pre +:+ String c post → p c = true.
Proof.
  intros H ->. rewrite all_chars_app in H.
  apply andb_true_iff in H as [_ H]. simpl in H.
  by apply andb_true_iff in H as [H _].
Qed.

End dir_names.

(** X1. A name that [_is_valid_dir] accepts holds no slash, no backslash,
    no period and no space: it cannot name a path or a parent directory. *)
Theorem valid_dir_no_separator (s pre post : string) (c : ascii) :
  _is_valid_dir s = true → s = pre +:+ String c post →
  c ≠ "/"%char ∧ c ≠ "\"%char ∧ c ≠ "."%char ∧ c ≠ " "%char.
Proof.
  intros [Hok|(t & -> & Hok)]%is_valid_dir_accepts Heq;
    apply dir_name_ok_chars in Hok; apply dir_char_plain.
  - left. by eapply all_chars_at.
  - assert (all_chars (λ c, Chr.is_dir_char c || bool_decide (c = "010"%char))
              (t +:+ String "010" "") = true) as Hall.
    { rewrite all_chars_app. apply andb_true_iff. split; [|done].
      eapply all_chars_mono; [|exact Hok]. intros d ->. done. }
    pose proof (all_chars_at _ _ _ _ _ Hall Heq) as Hc.
    apply orb_true_iff in Hc as [?|Hc]; [by left|right].
    by apply bool_decide_eq_true in Hc.
Qed.

Lemma valid_dir_no_separator_witness :
  ("-"%char ≠ "/"%char ∧ "-"%char ≠ "\"%char ∧ "-"%char ≠ "."%char
   ∧ "-"%char ≠ " "%char).
Proof.
  apply (valid_dir_no_separator "My-Plugin_1" "My" "Plugin_1" "-").
  - vm_compute. reflexivity.
  - reflexivity.
Defined.

(** ** [_build_dir] *)

Section build_dir.

Implicit Types (s t w : string) (c : ascii) (p q : ascii → bool).

Lemma sub_runs_go_keep p rep b s :
  all_chars (λ c, negb (p c)) s = true → Re.sub_runs_go p rep b s = s.
Proof.
  revert b. induction s as [|c s IH]; intros b; [done|]. simpl.
  intros [Hc Hs]%andb_true_iff. apply negb_true_iff in Hc. rewrite Hc.
  by rewrite IH.
Qed.

Lemma sub_runs_go_app p rep b c s w :
  all_chars (λ c, negb (p c)) (String c s) = true →
  Re.sub_runs_go p rep b (String c s +:+ w)
  = String c s +:+ Re.sub_runs_go p rep false w.
Proof.
  revert b c. induction s as [|d s IH]; intros b c.
  - simpl. intros Hc. rewrite andb_true_r in Hc. apply negb_true_iff in Hc.
    rewrite sapp_cons, sapp_nil_l. simpl. by rewrite Hc.
  - intros H. pose proof H as [Hc Hs]%andb_true_iff.
    apply negb_true_iff in Hc. rewrite sapp_cons.
    cbn [Re.sub_runs_go]. rewrite Hc. by rewrite (IH false d Hs).
Qed.

Lemma rstrip_by_app_all p s w :
  all_chars p w = true → Py.rstrip_by p (s +:+ w) = Py.rstrip_by p s.
Proof.
  intros Hw. induction s as [|c s IH].
  - rewrite sapp_nil_l. simpl.
    induction w as [|d w IHw]; [done|]. simpl in *.
    apply andb_true_iff in Hw as [Hd Hw]. by rewrite (IHw Hw), Hd.
  - rewrite sapp_cons. simpl. by rewrite IH.
Qed.

(** Without its hyphens at the end, a directory name is a directory
    name. *)
Lemma strip_hyphen_dir_name s :
  dir_name_ok s = true → dir_name_ok (Py.strip_by Chr.is_hyphen s) = true.
Proof.
  destruct s as [|c t]; [done|]. intros H.
  pose proof H as [Hc Ht]%andb_true_iff.
  assert (Chr.is_hyphen c = false) as Hh.
  { destruct (Chr.is_hyphen c) eqn:Hh; [|done].
    apply is_hyphen_true in Hh as ->. by vm_compute in Hc. }
  unfold Py.strip_by. rewrite lstrip_by_id by (simpl; by rewrite Hh).
  destruct (rstrip_by_prefix Chr.is_hyphen (String c t)) as [post Hpost].
  pose proof (rstrip_by_cons_ne Chr.is_hyphen c t Hh) as Hne.
  destruct (Py.rstrip_by Chr.is_hyphen (String c t)) as [|d r]; [done|].
  rewrite sapp_cons in Hpost. injection Hpost as <- ->.
  simpl. rewrite Hc. simpl. rewrite all_chars_app in Ht.
  by apply andb_true_iff in Ht as [? _].
Qed.

Lemma dir_name_ok_valid s : dir_name_ok s = true → _is_valid_dir s = true.
Proof. intros H. apply is_valid_dir_accepts. by left. Qed.

Lemma dir_chars_keep s :
  all_chars Chr.is_dir_char s = true →
  all_chars (λ c, negb (negb (Chr.is_dir_char c))) s = true.
Proof.
  apply all_chars_mono. intros c ->. done.
Qed.

(** [sanitize] turns every name that [_is_valid_dir] accepts into a name
    that it accepts. *)
Lemma sanitize_valid s : _is_valid_dir s = true → _is_valid_dir (sanitize s) = true.
Proof.
  intros [Hok|(t & -> & Hok)]%is_valid_dir_accepts; unfold sanitize, Re.sub_runs.
  - rewrite sub_runs_go_keep by by apply dir_chars_keep, dir_name_ok_chars.
    by apply dir_name_ok_valid, strip_hyphen_dir_name.
  - destruct t as [|c t]; [done|].
    rewrite sub_runs_go_app by by apply dir_chars_keep, dir_name_ok_chars.
    assert (Re.sub_runs_go (λ c, negb (Chr.is_dir_char c)) "-" false
              (String "010" "") = "-") as -> by done.
    unfold Py.strip_by.
    assert (Chr.is_hyphen c = false) as Hh.
    { destruct (Chr.is_hyphen c) eqn:Hh; [|done].
      apply is_hyphen_true in Hh as ->. by vm_compute in Hok. }
    rewrite (lstrip_by_id _ (String c t +:+ "-")) by (simpl; by rewrite Hh).
    rewrite rstrip_by_app_all by done.
    apply dir_name_ok_valid.
    pose proof (strip_hyphen_dir_name _ Hok) as H. unfold Py.strip_by in H.
    by rewrite lstrip_by_id in H by (simpl; by rewrite Hh).
Qed.

Lemma build_dir_cases kind repo_name meta class_prefix :
  _build_dir kind repo_name meta class_prefix = ""
  ∨ _is_valid_dir (_build_dir kind repo_name meta class_prefix) = true.
Proof.
  unfold _build_dir.
  repeat (match goal with
          | |- context [if _is_valid_dir ?x then _ else _] =>
              destruct (_is_valid_dir x) eqn:?
          end); auto.
Qed.

End build_dir.

(** X2. [_build_dir] returns the empty string or a name that
    [_is_valid_dir] accepts; and the directory of a built record, which is
    the repository name when [_build_dir] returns the empty string, is
    accepted exactly when [_build_dir] does not return the empty string:
    the repository name never saves a candidate that [_build_dir] gave
    up. *)
Theorem build_dir_valid_or_empty (kind repo_name class_prefix : string)
    (meta : gmap string string) :
  let dir := _build_dir kind repo_name meta class_prefix in
  (dir = "" ∨ _is_valid_dir dir = true)
  ∧ (_is_valid_dir (or_str dir repo_name) = true ↔ dir ≠ "").
Proof.
  intros dir. pose proof (build_dir_cases kind repo_name meta class_prefix) as H.
  fold dir in H. split; [done|]. unfold or_str. case_bool_decide as Hd.
  - split; [|done]. intros Hrepo. exfalso.
    apply sanitize_valid in Hrepo. unfold dir, _build_dir in Hd.
    rewrite Hrepo in Hd.
    repeat (match type of Hd with
            | context [if _is_valid_dir ?x then _ else _] =>
                destruct (_is_valid_dir x) eqn:?
            end);
      match goal with
      | H : _is_valid_dir ?x = true |- _ => rewrite Hd in H; done
      end.
  - split; [done|]. intros _. by destruct H.
Qed.

(** ** [_slugify] on a slug *)

Section slug_again.

Implicit Types (s t : string) (c : ascii) (p q : ascii → bool).

Lemma rstrip_by_none p s :
  all_chars (λ c, negb (p c)) s = true → Py.rstrip_by p s = s.
Proof.
  induction s as [|c s IH]; [done|]. simpl.
  intros [Hc Hs]%andb_true_iff. apply negb_true_iff in Hc.
  rewrite (IH Hs). destruct s; by rewrite ?Hc.
Qed.

Lemma strip_by_none p s :
  all_chars (λ c, negb (p c)) s = true → Py.strip_by p s = s.
Proof.
  intros H. unfold Py.strip_by. rewrite lstrip_by_id.
  - by apply rstrip_by_none.
  - destruct s as [|c s]; [done|]. simpl in *.
    by apply andb_true_iff in H as [? _].
Qed.

Lemma map_id_on q f s :
  (∀ c, q c = true → f c = c) → all_chars q s = true → Py.map f s = s.
Proof.
  intros Hf. induction s as [|c s IH]; [done|]. simpl.
  intros [Hc Hs]%andb_true_iff. by rewrite (Hf c Hc), IH.
Qed.

Lemma slug_char_lower c :
  Chr.is_lower_alnum c || Chr.is_hyphen c = true → Chr.lower c = c.
Proof. destruct c as [[] [] [] [] [] [] [] []]; vm_compute; congruence. Qed.

Lemma slug_char_not_space c :
  Chr.is_lower_alnum c || Chr.is_hyphen c = true → negb (Chr.is_space c) = true.
Proof. destruct c as [[] [] [] [] [] [] [] []]; vm_compute; congruence. Qed.

Lemma slug_char_split c :
  Chr.is_lower_alnum c || Chr.is_hyphen c = true →
  Chr.is_lower_alnum c = false → Chr.is_hyphen c = true.
Proof. intros H Hc. by rewrite Hc in H. Qed.

(** The first substitution of [_slugify] finds nothing to replace in a
    text of slug characters without two hyphens side by side. *)
Lemma sub_runs_go_slug b s :
  all_chars (λ c, Chr.is_lower_alnum c || Chr.is_hyphen c) s = true →
  no_pair Chr.is_hyphen s = true →
  (b = true → head_not Chr.is_hyphen s = true) →
  Re.sub_runs_go (λ c, negb (Chr.is_lower_alnum c)) "-" b s = s.
Proof.
  revert b. induction s as [|c s IH]; intros b; [done|].
  intros Hall Hpair Hb. pose proof Hall as [Hc Hs]%andb_true_iff.
  rewrite no_pair_cons in Hpair. apply andb_true_iff in Hpair as [Hcp Hsp].
  cbn [Re.sub_runs_go].
  destruct (Chr.is_lower_alnum c) eqn:Hl; cbn [negb].
  - by rewrite IH.
  - assert (Chr.is_hyphen c = true) as Hh by done.
    destruct b.
    { specialize (Hb eq_refl). simpl in Hb. by rewrite Hh in Hb. }
    rewrite IH; [|done..|].
    + apply is_hyphen_true in Hh as ->. done.
    + intros _. rewrite Hh in Hcp. simpl in Hcp.
      by rewrite head_in_not, negb_involutive in Hcp.
Qed.

Lemma collapse_hyphens_go_slug s :
  no_pair Chr.is_hyphen s = true → Re.collapse_hyphens_go false s = s.
Proof.
  induction s as [|c s IH]; [done|]. rewrite no_pair_cons.
  intros [Hcp Hsp]%andb_true_iff. cbn [Re.collapse_hyphens_go].
  destruct (Chr.is_hyphen c) eqn:Hc; [|by rewrite IH].
  destruct s as [|d s]; [done|]. simpl in Hcp.
  apply negb_true_iff in Hcp. rewrite Hcp. by rewrite IH.
Qed.

Lemma slugify_all_chars s :
  all_chars (λ c, Chr.is_lower_alnum c || Chr.is_hyphen c) (_slugify s) = true.
Proof.
  unfold _slugify. apply strip_by_all_chars.
  apply collapse_hyphens_go_all_chars; [done|].
  apply sub_runs_go_all_chars; [done|].
  intros c Hc. apply negb_false_iff in Hc. by rewrite Hc.
Qed.

Lemma slugify_no_pair s : no_pair Chr.is_hyphen (_slugify s) = true.
Proof. unfold _slugify. apply strip_by_no_pair, collapse_hyphens_go_no_pair. Qed.

Lemma slugify_head s : head_not Chr.is_hyphen (_slugify s) = true.
Proof. apply strip_by_head. Qed.

End slug_again.

(** X3. [_slugify] leaves its own output as it is: a slug is the slug of
    itself. *)
Theorem slugify_idempotent (s : string) : _slugify (_slugify s) = _slugify s.
Proof.
  pose proof (slugify_all_chars s) as Hall.
  pose proof (slugify_no_pair s) as Hpair.
  set (u := _slugify s) in *. unfold _slugify at 1. unfold Py.strip.
  rewrite (strip_by_none Chr.is_space u)
    by (eapply all_chars_mono; [apply slug_char_not_space|done]).
  unfold Py.lower. rewrite (map_id_on _ _ u slug_char_lower Hall).
  unfold Re.sub_runs. rewrite sub_runs_go_slug by done.
  unfold Re.collapse_hyphens. rewrite collapse_hyphens_go_slug by done.
  unfold u, _slugify. apply strip_by_idemp.
Qed.

(** ** The characters of a cleaned version *)

Section version_chars.

Implicit Types (s m : string) (c : ascii).

Lemma filter_all_chars p s : all_chars p (Py.filter p s) = true.
Proof.
  induction s as [|c s IH]; [done|]. simpl.
  destruct (p c) eqn:Hc; [|done]. simpl. by rewrite Hc.
Qed.

Lemma version_char_plain c :
  Chr.is_version_char c = true →
  negb (Chr.is_space c) && negb (bool_decide (c = "_"%char)) = true.
Proof. destruct c as [[] [] [] [] [] [] [] []]; vm_compute; congruence. Qed.

Lemma digit_plain c :
  Chr.is_digit c = true →
  negb (Chr.is_space c) && negb (bool_decide (c = "_"%char)) = true.
Proof. destruct c as [[] [] [] [] [] [] [] []]; vm_compute; congruence. Qed.

Lemma digits_plain s :
  digits s →
  all_chars (λ c, negb (Chr.is_space c) && negb (bool_decide (c = "_"%char))) s
  = true.
Proof. intros [_ H]. eapply all_chars_mono; [apply digit_plain|done]. Qed.

Lemma dotted_plain m :
  dotted m →
  all_chars (λ c, negb (Chr.is_space c) && negb (bool_decide (c = "_"%char))) m
  = true.
Proof.
  intros (a & b & Ha%digits_plain & Hb%digits_plain
          & [->|(c & Hc%digits_plain & ->)]);
    rewrite !all_chars_app, ?Ha, ?Hb, ?Hc; done.
Qed.

End version_chars.

(** X4. A cleaned version has one of two shapes, whatever the raw version
    is: it is a dotted numeric sequence of two or three components that
    occurs in the raw version, or every one of its characters is a digit,
    an ASCII letter, a period, a plus or a hyphen.  In both cases it holds
    no white space and no underscore. *)
Theorem clean_version_shape (v : string) :
  let r := _clean_version v in
  ((dotted r ∧ ∃ pre post, Py.strip v = pre +:+ r +:+ post)
   ∨ all_chars Chr.is_version_char r = true)
  ∧ all_chars (λ c, negb (Chr.is_space c) && negb (bool_decide (c = "_"%char))) r
    = true.
Proof.
  unfold _clean_version. cbn zeta. case_bool_decide; [by split; [right|]|].
  destruct (Re.search_dotted (Py.strip v)) as [m|] eqn:Hm.
  - apply search_dotted_Some in Hm as (pre & post & Heq & Hd & _).
    split; [left; eauto|by apply dotted_plain].
  - split; [right; apply filter_all_chars|].
    eapply all_chars_mono; [apply version_char_plain|apply filter_all_chars].
Qed.

(** ** The id and the directory of a built record *)

(** X5. The id of a built record is the kind, a hyphen and a slug: lower
    case ASCII letters, digits and hyphens, no two hyphens side by side,
    no hyphen at either end (the slug may be empty).  Its directory is the
    result of [_build_dir], or the repository name when that result is
    empty. *)
Theorem make_project_id_dir (kind : string) (gr : GithubRepo) (text : string) :
  ∃ slug,
    _make_project kind gr text !! "id" = Some (VStr (kind +:+ "-" +:+ slug))
    ∧ all_chars (λ c, Chr.is_lower_alnum c || Chr.is_hyphen c) slug = true
    ∧ no_pair Chr.is_hyphen slug = true
    ∧ head_not Chr.is_hyphen slug = true
    ∧ (∀ t, slug ≠ t +:+ "-")
    ∧ _make_project kind gr text !! "dir"
      = Some (VStr (or_str
                      (_build_dir kind (repo gr) (entry_meta text)
                         (if bool_decide (kind = "plugin")
                          then _extract_class_prefix text else ""))
                      (repo gr))).
Proof.
  set (dir := _build_dir kind (repo gr) (entry_meta text)
                (if bool_decide (kind = "plugin")
                 then _extract_class_prefix text else "")).
  exists (or_str (_slugify (or_str dir (repo gr)))
            (_slugify (owner gr +:+ "-" +:+ repo gr))).
  split; [done|].
  assert (∃ x, or_str (_slugify (or_str dir (repo gr)))
                 (_slugify (owner gr +:+ "-" +:+ repo gr)) = _slugify x)
    as [x ->].
  { unfold or_str at 1. case_bool_decide; eauto. }
  split_and!; [apply slugify_all_chars|apply slugify_no_pair
              |apply slugify_head| |done].
  intros t Heq. unfold _slugify, Py.strip_by in Heq.
  by pose proof (rstrip_by_last _ _ _ _ Heq).
Qed.

(** ** The block that [_first_docblock] returns *)

Section first_docblock.

Implicit Types (s t a b : string) (c : ascii) (i j n : nat).

Lemma drop_app_length a b : Py.drop (String.length a) (a +:+ b) = b.
Proof. induction a as [|c a IH]; [by destruct b|]. by rewrite sapp_cons. Qed.

Lemma take_app_length a b : Py.take (String.length a) (a +:+ b) = a.
Proof.
  induction a as [|c a IH]; [by destruct b|]. rewrite sapp_cons. simpl.
  by rewrite IH.
Qed.

Lemma occurs_at_split t s i :
  occurs_at t s i → ∃ pre post, s = pre +:+ t +:+ post ∧ String.length pre = i
                                ∧ Py.drop i s = t +:+ post.
Proof.
  intros (pre & post & -> & <-). exists pre, post.
  by rewrite drop_app_length.
Qed.

Lemma endswith_app a t : Py.endswith (a +:+ t) t = true.
Proof.
  unfold Py.endswith. rewrite sapp_length. apply andb_true_iff. split.
  - apply Nat.leb_le. lia.
  - apply bool_decide_eq_true.
    replace (String.length a + String.length t - String.length t)
      with (String.length a) by lia.
    apply drop_app_length.
Qed.

(** A closing marker lies two characters or more after the opening one. *)
Lemma open_then_close post pre2 post2 :
  "/**" +:+ post = pre2 +:+ "*/" +:+ post2 →
  Py.startswith (pre2 +:+ "*/") "/**" = true.
Proof.
  destruct pre2 as [|c1 [|c2 [|c3 pre2]]]; rewrite ?sapp_cons, ?sapp_nil_l;
    intros H; simplify_eq; apply prefix_true; by eexists.
Qed.

End first_docblock.

(** X6. A block that [_first_docblock] returns, when it is not empty,
    begins with ["/**"], ends with ["*/"], lies in the first 8000
    characters of the text, and holds no ["*/"] before its end: it stops at
    the first closing marker. *)
Theorem first_docblock_shape (text : string) :
  let doc := _first_docblock text in
  doc = ""
  ∨ (Py.startswith doc "/**" = true
     ∧ Py.endswith doc "*/" = true
     ∧ (∃ pre post, Py.take 8000 text = pre +:+ doc +:+ post)
     ∧ ∀ i, occurs_at "*/" doc i → i + 2 = String.length doc).
Proof.
  unfold _first_docblock. set (head := Py.take 8000 text).
  destruct (Py.find "/**" head) as [start|] eqn:Hs; [|by left].
  unfold Py.find_from.
  destruct (Py.find "*/" (Py.drop start head)) as [j|] eqn:Hj; [|by left].
  right. simpl.
  apply find_Some in Hs as [Hs _]. apply find_Some in Hj as [Hj Hmin].
  apply occurs_at_split in Hs as (pre & post & Hhead & Hlen & Hdrop).
  rewrite Hdrop in Hj, Hmin.
  destruct Hj as (pre2 & post2 & HD & Hl2).
  assert (Py.slice start (start + j + 2) head = pre2 +:+ "*/") as ->.
  { unfold Py.slice. rewrite Hdrop, HD.
    replace (start + j + 2 - start) with (String.length (pre2 +:+ "*/"))
      by (rewrite sapp_length; simpl; lia).
    rewrite <-sapp_assoc. apply take_app_length. }
  split_and!.
  - by eapply open_then_close.
  - apply endswith_app.
  - exists pre, post2. rewrite Hhead, HD. by rewrite !sapp_assoc.
  - intros i (p3 & q3 & Heq & Hl3).
    assert (i ≤ j).
    { apply (f_equal String.length) in Heq. rewrite !sapp_length in Heq.
      simpl in Heq. lia. }
    destruct (decide (i = j)) as [->|Hne].
    { rewrite sapp_length. simpl. lia. }
    exfalso. apply (Hmin i); [lia|].
    exists p3, (q3 +:+ post2). split; [|done].
    rewrite HD, <-sapp_assoc, Heq. by rewrite !sapp_assoc.
Qed.

(** ** The metadata dictionary *)

Section meta_values.

Implicit Types (lines : list string) (k v : string).

Lemma first_plain_line_clean lines :
  Forall (λ line, Py.strip line = line) lines →
  Py.strip (first_plain_line lines) = first_plain_line lines.
Proof.
  unfold first_plain_line. induction 1 as [|line lines Hline _ IH]; [done|].
  cbn [List.filter].
  destruct (negb (bool_decide (line = "")) && negb (Py.startswith line "@"));
    done.
Qed.

Lemma mk_meta_lookup_Some p a v l d k x :
  mk_meta p a v l d !! k = Some x →
  (k = "package" ∧ x = p) ∨ (k = "author" ∧ x = a) ∨ (k = "version" ∧ x = v)
  ∨ (k = "link" ∧ x = l) ∨ (k = "description" ∧ x = d).
Proof.
  unfold mk_meta. rewrite !lookup_insert, lookup_singleton.
  repeat case_decide; naive_solver.
Qed.

End meta_values.

(** X7. The dictionary that [_parse_docblock] returns has the five keys
    package, author, version, link and description, whatever the block is,
    and none of its values has white space at its start or at its end. *)
Theorem parse_docblock_keys_clean (doc : string) :
  dom (_parse_docblock doc)
  = {["package"; "author"; "version"; "link"; "description"]}
  ∧ ∀ k v, _parse_docblock doc !! k = Some v → Py.strip v = v.
Proof.
  rewrite parse_docblock_mk. split.
  - unfold mk_meta. rewrite !dom_insert_L, dom_singleton_L. set_solver.
  - intros k v Hk.
    apply mk_meta_lookup_Some in Hk
      as [[_ ->]|[[_ ->]|[[_ ->]|[[_ ->]|[_ ->]]]]];
      try apply first_tag_clean.
    apply first_plain_line_clean, docblock_lines_clean.
Qed.

(** ** The class prefix *)

Section class_prefix.

Implicit Types (s r g w : string) (c : ascii) (b : bool).

Lemma ident_not_space c : Chr.is_ident c = true → negb (Chr.is_space c) = true.
Proof. destruct c as [[] [] [] [] [] [] [] []]; vm_compute; congruence. Qed.

Lemma endswith_split w t :
  Py.endswith w t = true →
  w = Py.take (String.length w - String.length t) w +:+ t.
Proof.
  unfold Py.endswith. intros [_ Hd%bool_decide_eq_true]%andb_true_iff.
  set (n := String.length w - String.length t) in *.
  rewrite <-(take_drop n w) at 1. by rewrite Hd.
Qed.

Lemma match_class_here_Some r g :
  Re.match_class_here r = Some g →
  ∃ ws post,
    r = "class" +:+ ws +:+ g +:+ "_Plugin" +:+ post
    ∧ ws ≠ "" ∧ all_chars Chr.is_space ws = true
    ∧ g ≠ "" ∧ all_chars Chr.is_ident g = true
    ∧ Re.head_in Chr.is_word post = false.
Proof.
  unfold Re.match_class_here.
  destruct (String.prefix "class" r) eqn:Hp; [|done].
  apply prefix_true in Hp as [r0 ->].
  change (Py.drop 5 ("class" +:+ r0)) with r0.
  destruct (Re.head_in Chr.is_space r0) eqn:Hsp; [|done].
  set (r' := Py.lstrip_by Chr.is_space r0).
  set (w := Re.run Chr.is_ident r').
  destruct ((8 <=? String.length w) && Py.endswith w "_Plugin"
            && negb (Re.head_in Chr.is_word (Py.lstrip_by Chr.is_ident r')))
    eqn:Hc; [|done].
  intros [= <-].
  apply andb_true_iff in Hc as [[Hlen Hend]%andb_true_iff Hb].
  apply Nat.leb_le in Hlen. apply negb_true_iff in Hb.
  apply endswith_split in Hend. simpl String.length in Hend.
  exists (Re.run Chr.is_space r0), (Py.lstrip_by Chr.is_ident r').
  split_and!.
  - rewrite (run_lstrip Chr.is_space r0) at 1. fold r'.
    rewrite (run_lstrip Chr.is_ident r') at 1. fold w.
    rewrite Hend at 1. by rewrite !sapp_assoc.
  - destruct r0 as [|c r0]; [done|]. simpl in *. by rewrite Hsp.
  - apply run_all_chars.
  - intros Hg. apply (f_equal String.length) in Hg.
    rewrite take_length in Hg by lia. simpl in Hg. lia.
  - pose proof (run_all_chars Chr.is_ident r') as Hw. fold w in Hw.
    rewrite Hend, all_chars_app in Hw. by apply andb_true_iff in Hw as [? _].
  - done.
Qed.

Lemma search_class_Some b s g :
  Re.search_class b s = Some g →
  ∃ pre r, s = pre +:+ r ∧ Re.match_class_here r = Some g.
Proof.
  revert b. induction s as [|c s IH]; intros b.
  - cbn [Re.search_class]. destruct b; [done|].
    destruct (Re.match_class_here "") eqn:Hm; [|done]. intros [= ->].
    by exists "", "".
  - cbn [Re.search_class].
    destruct (if b then None else Re.match_class_here (String c s))
      as [g'|] eqn:Hm.
    + intros [= ->]. destruct b; [done|]. by exists "", (String c s).
    + intros (pre & r & -> & Hr)%IH. by exists (String c pre), r.
Qed.

End class_prefix.

(** X8. A class prefix that [_extract_class_prefix] returns, when it is
    not empty, is made of ASCII letters, digits and underscores, and stands
    in the first 16000 characters of the text between ["class"] with white
    space after it and ["_Plugin"] with no word character after it. *)
Theorem extract_class_prefix_sound (text : string) :
  let g := _extract_class_prefix text in
  g = ""
  ∨ ∃ pre ws post,
      Py.take 16000 text
      = pre +:+ "class" +:+ ws +:+ g +:+ "_Plugin" +:+ post
      ∧ ws ≠ "" ∧ all_chars Chr.is_space ws = true
      ∧ all_chars Chr.is_ident g = true
      ∧ Re.head_in Chr.is_word post = false.
Proof.
  unfold _extract_class_prefix. set (head := Py.take 16000 text).
  destruct (Re.search_class false head) as [g|] eqn:Hg; [|by left].
  right. simpl.
  apply search_class_Some in Hg as (pre & r & Hhead & Hr).
  apply match_class_here_Some in Hr
    as (ws & post & -> & Hws & Hsp & Hne & Hid & Hpost).
  assert (Py.strip g = g) as ->.
  { apply strip_by_none. eapply all_chars_mono; [apply ident_not_space|done]. }
  exists pre, ws, post. by rewrite Hhead.
Qed.

(** ** One record per link *)

Section links.

Implicit Types (st : merge_state) (l : list (gmap string value)).
Implicit Types (inc a b : gmap string value) (L : string).

Lemma index_links_None l L a :
  index_links ∅ 0 l !! L = None → a ∈ l → link_key a ≠ Some L.
Proof.
  intros HL%not_elem_of_dom Ha Hk. apply HL.
  rewrite dom_index_links. apply elem_of_union_r, elem_of_list_to_set.
  apply list_elem_of_omap. eauto.
Qed.

Lemma alter_update_link inc i l j a' :
  alter (update_existing inc) i l !! j = Some a' →
  ∃ a, l !! j = Some a ∧ link_key a' = link_key a.
Proof.
  rewrite list_lookup_alter. case_decide as Hij.
  - subst j. destruct (l !! i) as [a|]; [|done]. intros [= <-].
    exists a. split; [done|]. apply update_existing_link_key.
  - intros Ha. by exists a'.
Qed.

Lemma links_step st inc :
  indexed st → links_distinct (out st) →
  links_distinct (out (merge_step st inc)).
Proof.
  intros Hix Hd.
  destruct (decide (incoming_link inc = "")) as [He|Hne].
  { by rewrite merge_step_skip. }
  destruct (by_link st !! incoming_link inc) as [i|] eqn:Hi.
  - rewrite (merge_step_update _ _ i) by done. cbn [out].
    intros i' j' a' b' L Ha' Hb' HLa HLb.
    apply alter_update_link in Ha' as (a & Ha & Hka).
    apply alter_update_link in Hb' as (b & Hb & Hkb).
    rewrite Hka in HLa. rewrite Hkb in HLb. by eapply Hd.
  - rewrite merge_step_insert by done. cbn [out].
    set (inc2 := <["id" := _]> inc).
    assert (link_key inc2 = Some (incoming_link inc)) as Hk2.
    { unfold inc2. by rewrite link_key_set_id, incoming_link_key. }
    assert (∀ j a, out st !! j = Some a →
                   link_key a ≠ Some (incoming_link inc)) as Hold.
    { intros j a Ha. apply (index_links_None (out st)).
      - by rewrite <-Hix.
      - apply list_elem_of_lookup. eauto. }
    intros i' j' a b L Ha Hb HLa HLb.
    apply lookup_app_Some in Ha as [Ha|[Hi' Ha]];
      apply lookup_app_Some in Hb as [Hb|[Hj' Hb]].
    + by eapply Hd.
    + apply list_lookup_singleton_Some in Hb as [_ <-].
      rewrite Hk2 in HLb. injection HLb as <-. by destruct (Hold _ _ Ha).
    + apply list_lookup_singleton_Some in Ha as [_ <-].
      rewrite Hk2 in HLa. injection HLa as <-. by destruct (Hold _ _ Hb).
    + apply list_lookup_singleton_Some in Ha as [? _].
      apply list_lookup_singleton_Some in Hb as [? _]. lia.
Qed.

Lemma links_run st incoming :
  indexed st → links_distinct (out st) →
  links_distinct (out (foldl merge_step st incoming)).
Proof.
  revert st. induction incoming as [|inc incoming IH]; intros st Hix Hd;
    [done|].
  simpl. apply IH; [by apply indexed_step|by apply links_step].
Qed.

End links.

(** X9. The merger keeps one record per link: when no two records of the
    catalogue have the same link, no two records of the merged catalogue
    have, whatever the batch is. *)
Theorem merge_links_distinct (existing incoming : list (gmap string value)) :
  links_distinct existing →
  links_distinct (_merge_projects existing incoming).
Proof.
  intros Hd. unfold _merge_projects.
  apply links_run; [apply indexed_init|done].
Qed.

Lemma merge_links_distinct_witness :
  links_distinct
    (_merge_projects [blank_author_record]
       [bob_record; other_foo_record; other_foo_record]).
Proof.
  apply merge_links_distinct.
  intros i j a b L Ha Hb _ _.
  apply list_lookup_singleton_Some in Ha as [-> _].
  by apply list_lookup_singleton_Some in Hb as [-> _].
Defined.

(** ** Size of the merged catalogue, records without a link, and merging
    in two passes *)

Section passes.

Implicit Types (st : merge_state) (l : list (gmap string value)).
Implicit Types (inc a b : gmap string value) (L : string).

Lemma run_length st incoming :
  length (out (foldl merge_step st incoming))
  = length (out st) + length (inserted (dom (by_link st)) incoming).
Proof.
  destruct (run_frame st incoming) as (kept & added & -> & Hk & Ha).
  rewrite length_app.
  by rewrite <-(Forall2_length _ _ _ Hk), <-(Forall2_length _ _ _ Ha).
Qed.

Lemma inserted_length seen incoming :
  length (inserted seen incoming) ≤ length (List.filter has_link incoming).
Proof.
  revert seen. induction incoming as [|inc incoming IH]; intros seen; [done|].
  cbn [inserted List.filter]. unfold has_link at 1.
  destruct (bool_decide (incoming_link inc = "")); cbn [negb orb].
  - apply IH.
  - destruct (bool_decide (incoming_link inc ∈ seen)); cbn [length].
    + specialize (IH seen). lia.
    + specialize (IH ({[incoming_link inc]} ∪ seen)). lia.
Qed.

Lemma filter_has_link_length incoming :
  length (List.filter has_link incoming) ≤ length incoming.
Proof.
  induction incoming as [|inc incoming IH]; [done|].
  cbn [List.filter]. destruct (has_link inc); cbn [length]; lia.
Qed.

Lemma merge_init_links existing :
  dom (by_link (merge_init existing)) = catalogue_links existing.
Proof.
  cbn [merge_init by_link]. rewrite dom_index_links, dom_empty_L.
  by rewrite (left_id_L ∅ (∪)).
Qed.

Lemma run_filter st incoming :
  foldl merge_step st (List.filter has_link incoming)
  = foldl merge_step st incoming.
Proof.
  revert st. induction incoming as [|inc incoming IH]; intros st; [done|].
  cbn [List.filter foldl]. unfold has_link at 1.
  case_bool_decide as He; cbn [negb].
  - by rewrite merge_step_skip.
  - apply IH.
Qed.

Lemma collect_ids_alter inc i l :
  collect_ids (alter (update_existing inc) i l) = collect_ids l.
Proof.
  unfold collect_ids. f_equal. revert i.
  induction l as [|a l IH]; intros i; [done|].
  destruct i as [|i]; cbn [alter list_alter omap list_omap].
  - by rewrite update_existing_get_id.
  - fold (alter (update_existing inc) i l). by rewrite IH.
Qed.

Lemma collect_ids_snoc l a :
  truthy (get a "id") = true →
  collect_ids (l ++ [a]) = {[str (get a "id")]} ∪ collect_ids l.
Proof.
  intros Ha. unfold collect_ids. rewrite omap_app, list_to_set_app_L.
  cbn [omap list_omap]. rewrite Ha. cbn [list_to_set].
  rewrite (right_id_L ∅ (∪)). apply (comm_L (∪)).
Qed.

Lemma truthy_str_ne v : truthy v = true → str v ≠ "".
Proof.
  destruct v as [|[]|s]; cbn [truthy str]; try done.
  by intros ?%negb_true_iff%bool_decide_eq_false.
Qed.

Lemma suffixed_ne base i : suffixed base i ≠ "".
Proof.
  unfold suffixed. intros [_ H]%sapp_eq_nil. by apply sapp_eq_nil in H as [? _].
Qed.

Lemma unique_id_ne used base : base ≠ "" → (unique_id used base).1 ≠ "".
Proof.
  intros Hb. unfold unique_id. case_bool_decide; cbn [fst]; [|done].
  apply suffixed_ne.
Qed.

Lemma exact_step st inc :
  truthy (get inc "id") = true → used_exact st → used_exact (merge_step st inc).
Proof.
  intros Hid Hex.
  destruct (decide (incoming_link inc = "")) as [He|Hne].
  { by rewrite merge_step_skip. }
  destruct (by_link st !! incoming_link inc) as [i|] eqn:Hi.
  - rewrite (merge_step_update _ _ i) by done. unfold used_exact.
    cbn [out used_ids]. by rewrite collect_ids_alter.
  - rewrite merge_step_insert by done. unfold used_exact. cbn [out used_ids].
    assert (str_or_empty (get inc "id") ≠ "") as Hbase.
    { unfold str_or_empty. rewrite Hid. by apply truthy_str_ne. }
    pose proof (unique_id_ne (used_ids st) _ Hbase) as Hv.
    destruct (unique_id_spec (used_ids st) (str_or_empty (get inc "id")))
      as (v & Hu & _). rewrite Hu in Hv |- *. cbn [fst snd] in Hv |- *.
    rewrite collect_ids_snoc.
    + rewrite get_set_id. cbn [str]. by rewrite Hex.
    + rewrite get_set_id. cbn [truthy].
      by apply negb_true_iff, bool_decide_eq_false.
Qed.

Lemma exact_run st incoming :
  Forall (λ inc, truthy (get inc "id") = true) incoming →
  used_exact st → used_exact (foldl merge_step st incoming).
Proof.
  intros Hall. revert st.
  induction Hall as [|inc incoming Hid _ IH]; intros st Hex; [done|].
  cbn [foldl]. by apply IH, exact_step.
Qed.

Lemma state_of_out st :
  indexed st → used_exact st → st = merge_init (out st).
Proof.
  destruct st as [o b u]. unfold indexed, used_exact, merge_init.
  cbn [out by_link used_ids]. by intros -> ->.
Qed.

End passes.

(** X10. The merger removes no record and counts what it adds: the merged
    catalogue has the records of the catalogue and one more for each record
    of the batch that is inserted (a link that is not empty and was not
    seen before), so its length lies between the length of the catalogue and
    that length plus the length of the batch. *)
Theorem merge_length (existing incoming : list (gmap string value)) :
  length (_merge_projects existing incoming)
  = length existing + length (inserted (catalogue_links existing) incoming)
  ∧ length existing ≤ length (_merge_projects existing incoming)
  ∧ length (_merge_projects existing incoming)
    ≤ length existing + length incoming.
Proof.
  unfold _merge_projects. rewrite run_length, merge_init_links.
  cbn [merge_init out].
  pose proof (inserted_length (catalogue_links existing) incoming).
  pose proof (filter_has_link_length incoming). lia.
Qed.

(** X11. A batch can be merged in two passes: when every record of the
    first part carries an id that is not empty, merging the first part and
    then merging the second part into the result gives the same catalogue
    as merging the whole batch at once. *)
Theorem merge_two_passes
    (existing first second : list (gmap string value)) :
  Forall (λ inc, truthy (get inc "id") = true) first →
  _merge_projects existing (first ++ second)
  = _merge_projects (_merge_projects existing first) second.
Proof.
  intros Hall. unfold _merge_projects. rewrite foldl_app.
  set (st := foldl merge_step (merge_init existing) first).
  rewrite <-(state_of_out st); [done| |].
  - apply indexed_run, indexed_init.
  - by apply exact_run.
Qed.

Lemma merge_two_passes_witness :
  _merge_projects [foo_record]
    ([foo_record; other_foo_record] ++ [other_foo_record; no_id_record_1])
  = _merge_projects
      (_merge_projects [foo_record] [foo_record; other_foo_record])
      [other_foo_record; no_id_record_1].
Proof.
  apply merge_two_passes.
  repeat (constructor; [reflexivity|]). constructor.
Defined.

(** X12. The merger ignores the records of the batch whose link is missing
    or empty once the white space around it is removed: the merged
    catalogue is the same with and without them. *)
Theorem merge_ignores_no_link (existing incoming : list (gmap string value)) :
  _merge_projects existing (List.filter has_link incoming)
  = _merge_projects existing incoming.
Proof. unfold _merge_projects. by rewrite run_filter. Qed.

(** ** The collector and the run of [main] *)

Section orchestrator.

Variable fetch : string → string → string → string → option string.

Implicit Types (kind : string) (gr : GithubRepo) (repos : list GithubRepo).

Lemma str_or_empty_VStr s : str_or_empty (VStr s) = s.
Proof.
  unfold str_or_empty. cbn [truthy str]. by case_bool_decide.
Qed.

Lemma make_project_get_dir kind gr text :
  ∃ s, get (_make_project kind gr text) "dir" = VStr s.
Proof. by eexists. Qed.

Lemma make_project_get_id kind gr text :
  ∃ slug, get (_make_project kind gr text) "id" = VStr (kind +:+ "-" +:+ slug).
Proof. by eexists. Qed.

Lemma make_project_dir_str kind gr text :
  str_or_empty (get (_make_project kind gr text) "dir")
  = str (get (_make_project kind gr text) "dir").
Proof.
  destruct (make_project_get_dir kind gr text) as (s & ->).
  apply str_or_empty_VStr.
Qed.

Lemma make_project_id_truthy kind gr text :
  truthy (get (_make_project kind gr text) "id") = true.
Proof.
  destruct (make_project_get_id kind gr text) as (slug & ->).
  cbn [truthy].
  apply negb_true_iff, bool_decide_eq_false.
  intros [_ H]%sapp_eq_nil. by apply sapp_eq_nil in H as [? _].
Qed.

Lemma collect_take kind repos limit added :
  collect fetch kind repos limit added
  = take (limit - added) (omap (accepted fetch kind) repos).
Proof.
  revert added. induction repos as [|gr repos IH]; intros added.
  { cbn [collect omap list_omap]. by rewrite take_nil. }
  cbn [collect omap list_omap]. unfold accepted at 1.
  destruct (limit <=? added) eqn:Hl.
  { apply Nat.leb_le in Hl. by replace (limit - added) with 0 by lia. }
  apply Nat.leb_gt in Hl.
  destruct (fetch _ _ _ _) as [text|]; [|apply IH].
  cbn zeta. rewrite make_project_dir_str.
  destruct (_is_valid_dir _); cbn [negb]; [|apply IH].
  replace (limit - added) with (S (limit - S added)) by lia.
  cbn [take]. by rewrite IH.
Qed.

Lemma accepted_like kind gr p :
  accepted fetch kind gr = Some p → collected_like p.
Proof.
  unfold accepted. destruct (fetch _ _ _ _) as [text|]; [|done].
  cbn zeta. destruct (_is_valid_dir _) eqn:Hv; [|done]. intros [= <-].
  split_and!; [done|apply make_project_id_truthy
              |apply make_project_built_like].
Qed.

Lemma collect_like kind repos limit :
  Forall collected_like (collect fetch kind repos limit 0).
Proof.
  rewrite collect_take. apply Forall_take, Forall_forall.
  intros p (gr & _ & Hp)%list_elem_of_omap. by eapply accepted_like.
Qed.

Lemma collect_length kind repos limit :
  length (collect fetch kind repos limit 0) ≤ limit.
Proof. rewrite collect_take, length_take. lia. Qed.

End orchestrator.

(** X13. The collector returns the records of the first candidates that
    are accepted, up to the limit, in the order of the candidates: a
    candidate is accepted when its entry file is there and the directory of
    the record built from it is a directory name.  Nothing is collected
    for the limit 0. *)
Theorem collect_first_accepted
    (fetch : string → string → string → string → option string)
    (kind : string) (repos : list GithubRepo) (limit : nat) :
  collect fetch kind repos limit 0
  = take limit (omap (accepted fetch kind) repos)
  ∧ length (collect fetch kind repos limit 0) ≤ limit
  ∧ collect fetch kind repos 0 0 = [].
Proof.
  split_and!.
  - by rewrite collect_take, Nat.sub_0_r.
  - apply collect_length.
  - by rewrite collect_take.
Qed.

(** X14. In a run of [main], every record that is discovered has a
    directory that is a directory name, an id that is not empty, a link
    that is not empty and both flags set; at most [plugins] plus [themes]
    records are discovered (a negative option counts as 0).  The merged
    catalogue begins with the records of the catalogue, in their order,
    each with the same id, the same link and the same value in every field
    but dir, version, typecho, author, donate, description, name, type,
    isGithub and direct; the records that follow are those of the
    discovered records that are inserted, at most [plugins] plus [themes]
    of them. *)
Theorem main_discovered
    (fetch : string → string → string → string → option string)
    (projects : list (gmap string value))
    (plugin_repos theme_repos : list GithubRepo) (plugins themes : Z) :
  let found := discovered fetch plugin_repos theme_repos plugins themes in
  let result := merged fetch projects plugin_repos theme_repos plugins themes in
  Forall collected_like found
  ∧ length found ≤ Z.to_nat plugins + Z.to_nat themes
  ∧ (∃ kept added,
       result = kept ++ added
       ∧ Forall2 (same_outside updatable_keys) projects kept
       ∧ Forall2 (λ a b, a !! "id" = b !! "id" ∧ a !! "link" = b !! "link")
           projects kept
       ∧ Forall2 (same_outside ("id" :: updatable_keys))
           (inserted (catalogue_links projects) found) added
       ∧ length added ≤ Z.to_nat plugins + Z.to_nat themes)
  ∧ length projects ≤ length result
  ∧ length result ≤ length projects + Z.to_nat plugins + Z.to_nat themes.
Proof.
  intros found result.
  assert (length found ≤ Z.to_nat plugins + Z.to_nat themes) as Hlen.
  { unfold found, discovered. rewrite length_app.
    pose proof (collect_length fetch "plugin" plugin_repos
                  (Z.to_nat (0 `max` plugins))).
    pose proof (collect_length fetch "theme" theme_repos
                  (Z.to_nat (0 `max` themes))). lia. }
  pose proof (inserted_length (catalogue_links projects) found) as Hins.
  pose proof (filter_has_link_length found) as Hfil.
  split_and!; [|done| | |].
  - apply Forall_app. split; apply collect_like.
  - destruct (run_frame (merge_init projects) found)
      as (kept & added & Hout & Hkept & Hadded).
    rewrite merge_init_links in Hadded. cbn [merge_init out] in Hkept.
    exists kept, added. split_and!; [done|done| |done|].
    + eapply Forall2_impl; [exact Hkept|]. intros a b Hab.
      split; apply Hab; compute_done.
    + rewrite <-(Forall2_length _ _ _ Hadded). lia.
  - unfold result, merged, _merge_projects. rewrite run_length.
    cbn [merge_init out]. lia.
  - unfold result, merged, _merge_projects.
    rewrite run_length, merge_init_links. cbn [merge_init out]. fold found.
    lia.
Qed.

(** ** The display name *)

Section display_name.

Implicit Types (s r t word name pre : string) (p : ascii → bool).

Lemma tail_suffix word r t :
  match Re.ci_prefix word r with
  | Some r' =>
      if Re.head_in Re.is_sep r' then Some (Py.lstrip_by Re.is_sep r')
      else None
  | None => None
  end = Some t →
  ∃ pre, r = pre +:+ t.
Proof.
  destruct (Re.ci_prefix word r) as [r'|] eqn:Hr; [|done].
  destruct (Re.head_in Re.is_sep r'); [|done]. intros [= <-].
  apply ci_prefix_suffix in Hr as (pre & ->).
  exists (pre +:+ Re.run Re.is_sep r').
  by rewrite sapp_assoc, <-run_lstrip.
Qed.

Lemma sub_typecho_prefix_suffix word name :
  ∃ pre, name = pre +:+ Re.sub_typecho_prefix word name.
Proof.
  unfold Re.sub_typecho_prefix. cbn zeta.
  destruct (Re.ci_prefix "typecho" name) as [r|] eqn:Hn; [|by exists ""].
  apply ci_prefix_suffix in Hn as (pre & ->).
  match goal with
  | |- context [match ?w with Some rest => rest | None => _ end] =>
      destruct w as [rest|] eqn:Hw
  end.
  - destruct r as [|c r]; [done|]. destruct (Re.is_sep c); [|done].
    apply tail_suffix in Hw as (pre2 & ->).
    exists (pre +:+ String c pre2). by rewrite sapp_assoc, sapp_cons.
  - match goal with
    | |- context [default _ ?w] => destruct w as [rest|] eqn:Hw2
    end; cbn [default]; [|by exists ""].
    apply tail_suffix in Hw2 as (pre2 & ->).
    exists (pre +:+ pre2). by rewrite <-sapp_assoc.
Qed.

Lemma rstrip_by_suffix p pre s :
  Py.rstrip_by p (pre +:+ s) = pre +:+ s → s ≠ "" → Py.rstrip_by p s = s.
Proof.
  intros H Hs. induction pre as [|c pre IH]; [by rewrite sapp_nil_l in H|].
  apply IH. rewrite sapp_cons in H. cbn [Py.rstrip_by] in H.
  destruct (Py.rstrip_by p (pre +:+ s)) as [|c' r] eqn:Hr.
  - destruct (p c); [done|]. injection H as H. symmetry in H.
    apply sapp_eq_nil in H as [_ ?]. done.
  - by injection H.
Qed.

Lemma derive_display_name_cases repo_name kind :
  let name := _derive_display_name repo_name kind in
  name = repo_name
  ∨ (name ≠ "" ∧ Py.strip name = name
     ∧ ∃ pre, Py.strip repo_name = pre +:+ name).
Proof.
  unfold _derive_display_name. cbn zeta.
  set (n0 := Py.strip repo_name).
  set (n1 := if bool_decide (kind = "plugin") then _ else _).
  assert (∃ pre, n0 = pre +:+ n1) as (pre & Hn0).
  { unfold n1. repeat case_bool_decide;
      [apply sub_typecho_prefix_suffix..|by exists ""]. }
  case_bool_decide as He; [by left|]. right.
  split_and!; [done|apply strip_strip|].
  pose proof (run_lstrip Chr.is_space n1) as Hrun.
  assert (Py.lstrip_by Chr.is_space n1 ≠ "") as Hne.
  { intros Hl. apply He. unfold Py.strip, Py.strip_by. by rewrite Hl. }
  assert (Py.strip n1 = Py.lstrip_by Chr.is_space n1) as ->.
  { unfold Py.strip, Py.strip_by.
    apply (rstrip_by_suffix _ (pre +:+ Re.run Chr.is_space n1)); [|done].
    rewrite sapp_assoc, <-Hrun, <-Hn0. unfold n0, Py.strip, Py.strip_by.
    apply rstrip_by_idemp. }
  exists (pre +:+ Re.run Chr.is_space n1).
  by rewrite sapp_assoc, <-Hrun.
Qed.

End display_name.

(** X15. The display name is the repository name as it is, or what is left
    of the repository name, without the white space around it, once a
    prefix is removed: a name that is not empty, has no white space at
    either end, and ends the trimmed repository name.  It is empty only for
    an empty repository name. *)
Theorem derive_display_name_suffix (repo_name kind : string) :
  let name := _derive_display_name repo_name kind in
  (name = repo_name
   ∨ (name ≠ "" ∧ Py.strip name = name
      ∧ ∃ pre, Py.strip repo_name = pre +:+ name))
  ∧ (name = "" ↔ repo_name = "").
Proof.
  intros name. pose proof (derive_display_name_cases repo_name kind) as H.
  cbn zeta in H. fold name in H. split; [done|]. split.
  - intros Hn. destruct H as [H|[H _]]; congruence.
  - intros ->. unfold name, _derive_display_name.
    repeat case_bool_decide; done.
Qed.
